(** * playwright-bdd-framework: the HTTP client, the self-healing locator
      and the response validators

    A shallow embedding of the pieces of the repository that carry
    decision logic,

    - [src/api/client/ApiClient.ts]      (module [ApiClient] below),
    - [src/core/utils/auto-heal.ts]      (module [AutoHeal] below), and
    - [src/api/helpers/ApiValidator.ts]  (module [ApiValidator] below),

    together with the properties the specification states about them.

    Conventions of the embedding.

    - JavaScript strings are [string]s (their UTF-8 bytes); integer-valued
      JavaScript numbers are [Z]; an optional field [f?: T] is an [option T]
      with [None] for [undefined].
    - A plain object used as a dictionary ([Record<string,string>]) is a
      [gmap string string].
    - [async] functions are computations in a small monad ([Eff]) that
      threads the state of the outside world (the transport, the clock, the
      page), may complete by a [throw], and records in a trace every call
      the code makes to a collaborator (transport, timer, metrics, logger,
      locator wait).  Theorems about "how many attempts" or "which strategy
      was tried" are statements about that trace. *)

From Stdlib Require Import ZArith Ascii String List Lia Sorted.
From stdpp Require Import gmap strings list fin_maps pretty.

#[local] Set Warnings "-register-all".

Local Open Scope string_scope.
Local Open Scope list_scope.
Local Open Scope Z_scope.

(** * JavaScript values *)

(** The character [U+0022] and the one-character string that holds it. *)
Definition dquote : ascii := ascii_of_N 34.
Definition quote : string := String dquote EmptyString.

(** The values [JSON.parse] can produce, which are also the values a
    request [body] may hold.  A number is the exact decimal
    [mantissa * 10 ^ exponent]; rounding to an IEEE double is not
    modelled.  An object is the list of its own properties. *)
Inductive JsValue : Type :=
| JsNull
| JsBool (b : bool)
| JsNumber (mantissa exponent : Z)
| JsString (s : string)
| JsArray (items : list JsValue)
| JsObject (fields : list (string * JsValue)).

(** [if (v)] on a JavaScript value. *)
Definition truthy (v : JsValue) : bool :=
  match v with
  | JsNull => false
  | JsBool b => b
  | JsNumber m _ => negb (m =? 0)
  | JsString s => negb (String.eqb s EmptyString)
  | JsArray _ | JsObject _ => true
  end.

(** [if (o)] on an optional value: [undefined] is falsy. *)
Definition truthy_opt (o : option JsValue) : bool :=
  match o with Some v => truthy v | None => false end.

(** [s ? .. : ..] on an optional string: [undefined] and the empty string are falsy. *)
Definition nonempty (o : option string) : option string :=
  match o with
  | Some s => if String.eqb s EmptyString then None else Some s
  | None => None
  end.

(** [obj[k] = v] on an object kept as a property list: an existing
    property keeps its position. *)
Fixpoint obj_set (k : string) (v : JsValue) (fields : list (string * JsValue))
  : list (string * JsValue) :=
  match fields with
  | [] => [(k, v)]
  | (k', v') :: rest =>
      if String.eqb k k' then (k, v) :: rest else (k', v') :: obj_set k v rest
  end.

(** ASCII lower-casing, as [toLowerCase] acts on header names and as the
    selector engine compares text. *)
Definition lower_ascii (c : ascii) : ascii :=
  let n := N_of_ascii c in
  if ((65 <=? n) && (n <=? 90))%N then ascii_of_N (n + 32) else c.

Fixpoint lower_case (s : string) : string :=
  match s with
  | EmptyString => EmptyString
  | String c s' => String (lower_ascii c) (lower_case s')
  end.

(** [hay.includes(needle)] *)
Fixpoint includes (needle hay : string) : bool :=
  String.prefix needle hay
  || match hay with
     | EmptyString => false
     | String _ hay' => includes needle hay'
     end.

(** * A reference [JSON.parse]

    [JSON.parse] belongs to the language runtime.  [JSON_parse] follows the
    JSON grammar (ECMA-404): a lexer that walks the text once, and a
    push-down recogniser over the tokens.  [None] stands for the
    [SyntaxError] that [JSON.parse] throws. *)
Module Json.

Inductive token : Type :=
| TLBrace | TRBrace | TLBracket | TRBracket | TColon | TComma
| TTrue | TFalse | TNull
| TStr (s : string)
| TNum (mantissa exponent : Z).

Definition is_digit (c : ascii) : bool :=
  let n := N_of_ascii c in ((48 <=? n) && (n <=? 57))%N.

Definition digit_val (c : ascii) : Z := Z.of_N (N_of_ascii c) - 48.

Definition hex_val (c : ascii) : option N :=
  let n := N_of_ascii c in
  if ((48 <=? n) && (n <=? 57))%N then Some (n - 48)%N
  else if ((65 <=? n) && (n <=? 70))%N then Some (n - 55)%N
  else if ((97 <=? n) && (n <=? 102))%N then Some (n - 87)%N
  else None.

(** ** Strings *)

(** A string literal is read as a list of pieces: a byte copied from the
    text, or the UTF-16 code unit of a [\uXXXX] escape. *)
Inductive piece : Type :=
| Raw (c : ascii)
| Unit16 (u : N).

(** [lex_string cs] reads the characters after an opening quote up to the
    closing quote; it returns the pieces and the number of characters
    consumed, closing quote included. *)
Fixpoint lex_string (cs : list ascii) : option (list piece * nat) :=
  match cs with
  | [] => None
  | c :: rest =>
      if Ascii.eqb c dquote then Some ([], 1%nat)
      else if Ascii.eqb c "\" then
        match rest with
        | [] => None
        | e :: rest' =>
            let simple (b : N) :=
              match lex_string rest' with
              | Some (ps, n) => Some (Raw (ascii_of_N b) :: ps, S (S n))
              | None => None
              end in
            if Ascii.eqb e dquote then simple 34%N
            else if Ascii.eqb e "\" then simple 92%N
            else if Ascii.eqb e "/" then simple 47%N
            else if Ascii.eqb e "b" then simple 8%N
            else if Ascii.eqb e "f" then simple 12%N
            else if Ascii.eqb e "n" then simple 10%N
            else if Ascii.eqb e "r" then simple 13%N
            else if Ascii.eqb e "t" then simple 9%N
            else if Ascii.eqb e "u" then
              match rest' with
              | h1 :: h2 :: h3 :: h4 :: rest'' =>
                  match hex_val h1, hex_val h2, hex_val h3, hex_val h4,
                        lex_string rest'' with
                  | Some a, Some b, Some c', Some d, Some (ps, n) =>
                      Some (Unit16 (((a * 16 + b) * 16 + c') * 16 + d)%N :: ps,
                            (6 + n)%nat)
                  | _, _, _, _, _ => None
                  end
              | _ => None
              end
            else None
        end
      else if (N_of_ascii c <? 32)%N then None
      else
        match lex_string rest with
        | Some (ps, n) => Some (Raw c :: ps, S n)
        | None => None
        end
  end.

(** UTF-8 bytes of a code point (a lone surrogate is encoded like any
    other three-byte code point). *)
Definition utf8 (cp : N) : list ascii :=
  (if cp <? 128 then [ascii_of_N cp]
   else if cp <? 2048 then
     [ascii_of_N (192 + cp / 64); ascii_of_N (128 + cp mod 64)]
   else if cp <? 65536 then
     [ascii_of_N (224 + cp / 4096); ascii_of_N (128 + (cp / 64) mod 64);
      ascii_of_N (128 + cp mod 64)]
   else
     [ascii_of_N (240 + cp / 262144); ascii_of_N (128 + (cp / 4096) mod 64);
      ascii_of_N (128 + (cp / 64) mod 64); ascii_of_N (128 + cp mod 64)])%N.

Definition is_high (u : N) : bool := ((55296 <=? u) && (u <=? 56319))%N.
Definition is_low (u : N) : bool := ((56320 <=? u) && (u <=? 57343))%N.

Fixpoint decode (ps : list piece) : list ascii :=
  match ps with
  | [] => []
  | Raw c :: rest => c :: decode rest
  | Unit16 hi :: rest =>
      match rest with
      | Unit16 lo :: rest' =>
          if is_high hi && is_low lo
          then utf8 (65536 + (hi - 55296) * 1024 + (lo - 56320))%N ++ decode rest'
          else utf8 hi ++ decode rest
      | _ => utf8 hi ++ decode rest
      end
  end.

(** ** Numbers *)

Fixpoint span_digits (cs : list ascii) : list ascii * list ascii :=
  match cs with
  | c :: rest =>
      if is_digit c
      then let '(ds, tl) := span_digits rest in (c :: ds, tl)
      else ([], cs)
  | [] => ([], [])
  end.

Definition digits_val (ds : list ascii) : Z :=
  fold_left (fun acc c => 10 * acc + digit_val c) ds 0.

(** Integers keep exponent [0]; a fraction has a negative exponent and a
    mantissa that does not end in [0]. *)
Fixpoint strip_zeros (fuel : nat) (m e : Z) : Z * Z :=
  match fuel with
  | O => (m, e)
  | S fuel' =>
      if (e <? 0) && (m mod 10 =? 0)
      then strip_zeros fuel' (m / 10) (e + 1)
      else (m, e)
  end.

Definition normalise (m e : Z) : Z * Z :=
  if m =? 0 then (0, 0)
  else if 0 <=? e then (m * 10 ^ e, 0)
  else strip_zeros (Z.to_nat (- e)) m e.

(** [lex_number cs] reads a number at the head of [cs]: an optional
    minus sign, an integer part without a superfluous leading zero, an
    optional fraction, an optional exponent.  It returns the normalised
    decimal and the number of characters consumed. *)
Definition lex_number (cs : list ascii) : option (Z * Z * nat) :=
  let '(neg, cs1) :=
    match cs with
    | c :: rest => if Ascii.eqb c "-" then (true, rest) else (false, cs)
    | [] => (false, cs)
    end in
  let '(int, cs2) := span_digits cs1 in
  match int with
  | [] => None
  | d :: more =>
      if Ascii.eqb d "0" && negb (Nat.eqb (length more) 0) then None
      else
        let frac_part :=
          match cs2 with
          | c :: rest =>
              if Ascii.eqb c "."
              then match span_digits rest with
                   | ([], _) => None
                   | (fr, tl) => Some (fr, tl)
                   end
              else Some ([], cs2)
          | [] => Some ([], cs2)
          end in
        match frac_part with
        | None => None
        | Some (frac, cs3) =>
            let exp_part :=
              match cs3 with
              | c :: rest =>
                  if Ascii.eqb c "e" || Ascii.eqb c "E" then
                    let '(eneg, rest') :=
                      match rest with
                      | s :: r =>
                          if Ascii.eqb s "-" then (true, r)
                          else if Ascii.eqb s "+" then (false, r)
                          else (false, rest)
                      | [] => (false, rest)
                      end in
                    match span_digits rest' with
                    | ([], _) => None
                    | (ds, tl) =>
                        let v := digits_val ds in
                        Some (if eneg then - v else v, tl)
                    end
                  else Some (0, cs3)
              | [] => Some (0, cs3)
              end in
            match exp_part with
            | None => None
            | Some (ex, cs4) =>
                let m := digits_val (int ++ frac) in
                let '(m', e') :=
                  normalise (if neg then - m else m)
                            (ex - Z.of_nat (length frac)) in
                Some (m', e', (length cs - length cs4)%nat)
            end
        end
  end.

(** ** Tokens *)

Definition is_space (c : ascii) : bool :=
  let n := N_of_ascii c in
  ((n =? 32) || (n =? 9) || (n =? 10) || (n =? 13))%N.

Fixpoint starts_with (p cs : list ascii) : bool :=
  match p, cs with
  | [], _ => true
  | a :: p', c :: cs' => Ascii.eqb a c && starts_with p' cs'
  | _ :: _, [] => false
  end.

(** The token at the head of [cs] and the number of characters it
    spans. *)
Definition lex_token (cs : list ascii) : option (token * nat) :=
  match cs with
  | [] => None
  | c :: rest =>
      if Ascii.eqb c "{" then Some (TLBrace, 1%nat)
      else if Ascii.eqb c "}" then Some (TRBrace, 1%nat)
      else if Ascii.eqb c "[" then Some (TLBracket, 1%nat)
      else if Ascii.eqb c "]" then Some (TRBracket, 1%nat)
      else if Ascii.eqb c ":" then Some (TColon, 1%nat)
      else if Ascii.eqb c "," then Some (TComma, 1%nat)
      else if Ascii.eqb c dquote then
        match lex_string rest with
        | Some (ps, n) => Some (TStr (string_of_list_ascii (decode ps)), S n)
        | None => None
        end
      else if starts_with (list_ascii_of_string "true") cs
      then Some (TTrue, 4%nat)
      else if starts_with (list_ascii_of_string "false") cs
      then Some (TFalse, 5%nat)
      else if starts_with (list_ascii_of_string "null") cs
      then Some (TNull, 4%nat)
      else
        match lex_number cs with
        | Some (m, e, n) => Some (TNum m e, n)
        | None => None
        end
  end.

(** The lexer walks the text once; [skip] counts the characters that
    still belong to the token read last. *)
Fixpoint lex (skip : nat) (cs : list ascii) : option (list token) :=
  match cs with
  | [] => Some []
  | c :: rest =>
      match skip with
      | S k => lex k rest
      | O =>
          if is_space c then lex O rest
          else
            match lex_token cs with
            | Some (t, n) =>
                match lex (Nat.pred n) rest with
                | Some ts => Some (t :: ts)
                | None => None
                end
            | None => None
            end
      end
  end.

(** ** Values *)

(** An enclosing container that waits for the value being read. *)
Inductive frame : Type :=
| FArr (items : list JsValue)
| FObj (fields : list (string * JsValue)) (key : string).

Inductive state : Type :=
| SValue (stk : list frame)
| SArrFirst (stk : list frame)
| SArrNext (items : list JsValue) (stk : list frame)
| SObjFirst (stk : list frame)
| SObjKey (fields : list (string * JsValue)) (stk : list frame)
| SColon (fields : list (string * JsValue)) (key : string) (stk : list frame)
| SObjNext (fields : list (string * JsValue)) (stk : list frame)
| SDone (v : JsValue).

(** A value is complete: hand it to the container on top of the stack. *)
Definition complete (v : JsValue) (stk : list frame) : state :=
  match stk with
  | [] => SDone v
  | FArr items :: stk' => SArrNext (items ++ [v]) stk'
  | FObj fields key :: stk' => SObjNext (obj_set key v fields) stk'
  end.

Definition start_value (t : token) (stk : list frame) : option state :=
  match t with
  | TNull => Some (complete JsNull stk)
  | TTrue => Some (complete (JsBool true) stk)
  | TFalse => Some (complete (JsBool false) stk)
  | TStr s => Some (complete (JsString s) stk)
  | TNum m e => Some (complete (JsNumber m e) stk)
  | TLBracket => Some (SArrFirst stk)
  | TLBrace => Some (SObjFirst stk)
  | _ => None
  end.

Definition step (st : state) (t : token) : option state :=
  match st, t with
  | SValue stk, _ => start_value t stk
  | SArrFirst stk, TRBracket => Some (complete (JsArray []) stk)
  | SArrFirst stk, _ => start_value t (FArr [] :: stk)
  | SArrNext items stk, TComma => Some (SValue (FArr items :: stk))
  | SArrNext items stk, TRBracket => Some (complete (JsArray items) stk)
  | SObjFirst stk, TRBrace => Some (complete (JsObject []) stk)
  | SObjFirst stk, TStr k => Some (SColon [] k stk)
  | SObjKey fields stk, TStr k => Some (SColon fields k stk)
  | SColon fields k stk, TColon => Some (SValue (FObj fields k :: stk))
  | SObjNext fields stk, TComma => Some (SObjKey fields stk)
  | SObjNext fields stk, TRBrace => Some (complete (JsObject fields) stk)
  | _, _ => None
  end.

Fixpoint run (st : state) (ts : list token) : option state :=
  match ts with
  | [] => Some st
  | t :: ts' =>
      match step st t with
      | Some st' => run st' ts'
      | None => None
      end
  end.

Definition JSON_parse (text : string) : option JsValue :=
  match lex O (list_ascii_of_string text) with
  | Some ts =>
      match run (SValue []) ts with
      | Some (SDone v) => Some v
      | _ => None
      end
  | None => None
  end.

End Json.

(** * Effects

    An [async] function is a computation over the state [W] of the outside
    world.  It completes normally or by a [throw] of a value of type [X],
    and it leaves the list of the events (type [Ev]) it caused, oldest
    first. *)
Inductive completion (X A : Type) : Type :=
| Normal (a : A)
| Throw (x : X).
Arguments Normal {X A} a.
Arguments Throw {X A} x.

Definition Eff (W Ev X A : Type) : Type := W -> completion X A * W * list Ev.

Section EffOps.
Context {W Ev X : Type}.

Definition eff_ret {A} (a : A) : Eff W Ev X A :=
  fun w => (Normal a, w, []).

Definition eff_bind {A B} (k : A -> Eff W Ev X B) (c : Eff W Ev X A)
  : Eff W Ev X B :=
  fun w =>
    match c w with
    | (Normal a, w1, t1) =>
        let '(r, w2, t2) := k a w1 in (r, w2, t1 ++ t2)
    | (Throw x, w1, t1) => (Throw x, w1, t1)
    end.

(** [throw x] *)
Definition throw {A} (x : X) : Eff W Ev X A :=
  fun w => (Throw x, w, []).

(** [try { c } catch (x) { h x }] *)
Definition try_catch {A} (c : Eff W Ev X A) (h : X -> Eff W Ev X A)
  : Eff W Ev X A :=
  fun w =>
    match c w with
    | (Normal a, w1, t1) => (Normal a, w1, t1)
    | (Throw x, w1, t1) =>
        let '(r, w2, t2) := h x w1 in (r, w2, t1 ++ t2)
    end.

(** An event that leaves the world as it is. *)
Definition emit (e : Ev) : Eff W Ev X unit :=
  fun w => (Normal tt, w, [e]).

(** Reading the world. *)
Definition observe {A} (f : W -> A) : Eff W Ev X A :=
  fun w => (Normal (f w), w, []).

Definition result {A} (r : completion X A * W * list Ev) : completion X A :=
  r.1.1.
Definition trace {A} (r : completion X A * W * list Ev) : list Ev := r.2.
End EffOps.

#[global] Instance Eff_mret {W Ev X} : MRet (Eff W Ev X) := @eff_ret W Ev X.
#[global] Instance Eff_mbind {W Ev X} : MBind (Eff W Ev X) := @eff_bind W Ev X.

(** Severity of a [Logger] line. *)
Inductive LogLevel : Type := ERROR | WARN | INFO | DEBUG.

(** A JavaScript [Error] object. *)
Record Error : Type := { message : string }.

(** * [src/api/client/ApiClient.ts] *)
Module ApiClient.

(** ** Data *)

(** What the code may throw: an [Error], or [null] ([None]). *)
Definition Thrown : Type := option Error.

Record ApiRequestOptions : Type := {
  opt_headers : option (gmap string string);
  opt_params : option (gmap string string);
  opt_body : option JsValue;
  opt_timeout : option Z;
  opt_retries : option Z
}.

(** [{}], the default value of the [options] parameter. *)
Definition no_options : ApiRequestOptions :=
  {| opt_headers := None; opt_params := None; opt_body := None;
     opt_timeout := None; opt_retries := None |}.

Record ApiResponseData : Type := {
  status : Z;
  statusText : string;
  body : JsValue;
  rawBody : string;
  headers : gmap string string;
  responseTime : Z;
  url : string;
  method : string
}.

(** ** The transport: Playwright's [APIRequestContext] *)

(** The five methods of [APIRequestContext] the client calls. *)
Inductive Verb : Type := GET | POST | PUT | PATCH | DELETE.

Definition verb_name (v : Verb) : string :=
  match v with
  | GET => "GET" | POST => "POST" | PUT => "PUT"
  | PATCH => "PATCH" | DELETE => "DELETE"
  end.

(** The [requestOptions] object handed to the transport. *)
Record RequestOptions : Type := {
  rq_headers : gmap string string;
  rq_timeout : Z;
  rq_params : option (gmap string string);
  rq_data : option JsValue
}.

(** Playwright's [APIResponse], by what its accessors [status()],
    [statusText()] and [headers()] return and by what awaiting [text()]
    gives: the text of the body, or the error the promise is rejected
    with when the body cannot be read. *)
Record APIResponse : Type := {
  resp_status : Z;
  resp_statusText : string;
  resp_text : Error + string;
  resp_headers : gmap string string
}.

(** The collaborators of the client, over a world [W]:
    [rt_request v url ro] is [this.request.get/post/..(url, ro)], which
    answers with a response or throws; [rt_now] is [Date.now()];
    [rt_sleep ms] is the passing of a [setTimeout(r, ms)]. *)
Record Runtime (W : Type) : Type := {
  rt_request : Verb -> string -> RequestOptions -> W -> (Error + APIResponse) * W;
  rt_now : W -> Z;
  rt_sleep : Z -> W -> W
}.
Arguments rt_request {W} _ _ _ _ _.
Arguments rt_now {W} _ _.
Arguments rt_sleep {W} _ _ _.

(** What the client does to the outside, in order. *)
Inductive Event : Type :=
| Request (v : Verb) (url : string) (ro : RequestOptions)
          (answer : Error + APIResponse)
| Sleep (ms : Z)
| Metric (responseTime : Z)
| Log (level : LogLevel) (msg : string) (data : option JsValue).

(** [ENV_CONFIG], as far as the client reads it. *)
Record EnvironmentConfig : Type := {
  API_BASE_URL : string;
  API_TIMEOUT : Z
}.

(** The state of an [ApiClient] instance. *)
Record Client : Type := {
  baseUrl : string;
  defaultHeaders : gmap string string
}.

(** [headers[key] = value] on a plain object.  The key [__proto__] is the
    inherited accessor of [Object.prototype]: assigning a string to it
    creates no property. *)
Definition assign (key value : string) (o : gmap string string)
  : gmap string string :=
  if String.eqb key "__proto__" then o else <[key := value]> o.

(** [{ ...a, ...b }] *)
Definition spread (a : gmap string string) (b : option (gmap string string))
  : gmap string string :=
  match b with Some b' => b' ∪ a | None => a end.

(** [a || b] on numbers: [undefined] and [0] are falsy. *)
Definition or_default (a : option Z) (b : Z) : Z :=
  match a with
  | Some n => if n =? 0 then b else n
  | None => b
  end.

(** [a ?? b] *)
Definition nullish (a : option Z) (b : Z) : Z :=
  match a with Some n => n | None => b end.

(** ** The class *)

(** [parseResponse]: the promise it returns is rejected when
    [response.text()] is, and is fulfilled with the normalised response
    otherwise. *)
Definition parseResponse (response : APIResponse) (method url : string)
           (responseTime : Z) : Error + ApiResponseData :=
  match resp_text response with
  | inl e => inl e
  | inr rawBody =>
      let body :=
        match Json.JSON_parse rawBody with
        | Some parsed => parsed
        | None => JsString rawBody
        end in
      let allHeaders := resp_headers response in
      let headers :=
        fold_left (fun headers '(key, value) => assign key value headers)
                  (map_to_list allHeaders) ∅ in
      inr {| status := resp_status response;
             statusText := resp_statusText response;
             body := body;
             rawBody := rawBody;
             headers := headers;
             responseTime := responseTime;
             url := url;
             method := method |}
  end.

Section Operations.
Context {W : Type} (R : Runtime W) (ENV_CONFIG : EnvironmentConfig).

#[local] Abbreviation M := (Eff W Event Thrown).

Definition log (level : LogLevel) (msg : string) (data : option JsValue)
  : M unit :=
  emit (Log level msg data).

(** [this.request.<verb>(url, requestOptions)]: the answer, or the
    error thrown, is recorded with the call. *)
Definition send (v : Verb) (url : string) (ro : RequestOptions)
  : M APIResponse :=
  fun w =>
    match rt_request R v url ro w with
    | (inr response, w') => (Normal response, w', [Request v url ro (inr response)])
    | (inl e, w') => (Throw (Some e), w', [Request v url ro (inl e)])
    end.

Definition Date_now : M Z := observe (rt_now R).

(** [await new Promise((r) => setTimeout(r, ms))] *)
Definition sleep (ms : Z) : M unit :=
  fun w => (Normal tt, rt_sleep R ms w, [Sleep ms]).

(** [constructor(request, baseUrl = ENV_CONFIG.API_BASE_URL,
    defaultHeaders = {})] *)
Definition new (baseUrl : option string)
           (defaultHeaders : option (gmap string string)) : M Client :=
  let this :=
    {| baseUrl := default (API_BASE_URL ENV_CONFIG) baseUrl;
       defaultHeaders :=
         spread (<["Accept" := "application/json"]>
                   {["Content-Type" := "application/json"]})
                defaultHeaders |} in
  log INFO ("ApiClient initialized with base URL: " +:+ ApiClient.baseUrl this) None;;
  mret this.

Definition setAuthToken (this : Client) (token : string) : M Client :=
  let this' :=
    {| baseUrl := baseUrl this;
       defaultHeaders :=
         assign "Authorization" ("Bearer " +:+ token) (defaultHeaders this) |} in
  log INFO "Authorization token set for future requests." None;;
  mret this'.

Definition clearAuthToken (this : Client) : M Client :=
  let this' :=
    {| baseUrl := baseUrl this;
       defaultHeaders := delete "Authorization" (defaultHeaders this) |} in
  log INFO "Authorization token cleared." None;;
  mret this'.

(** [await p] on a promise that settles by itself: its value, or the
    rejection, thrown. *)
Definition await {A} (p : Error + A) : M A :=
  match p with
  | inr a => mret a
  | inl e => throw (Some e)
  end.

Definition executeRequest (method url : string)
           (headers : gmap string string) (options : ApiRequestOptions)
           (timeout : Z) : M APIResponse :=
  let requestOptions :=
    {| rq_headers := headers;
       rq_timeout := timeout;
       rq_params := opt_params options;
       rq_data :=
         if truthy_opt (opt_body options)
            && bool_decide (method ∈ ["POST"; "PUT"; "PATCH"])
         then opt_body options else None |} in
  if String.eqb method "GET" then send GET url requestOptions
  else if String.eqb method "POST" then send POST url requestOptions
  else if String.eqb method "PUT" then send PUT url requestOptions
  else if String.eqb method "PATCH" then send PATCH url requestOptions
  else if String.eqb method "DELETE" then send DELETE url requestOptions
  else throw (Some {| message := "Unsupported HTTP method: " +:+ method |}).

(** The body of the [for] loop of [makeRequest], for one value of
    [attempt]: [inl result] is the [return result] of the [try] block,
    [inr lastError] the end of the [catch] block. *)
Definition attempt_body (method url : string)
           (headers : gmap string string) (options : ApiRequestOptions)
           (timeout maxRetries attempt : Z)
  : M (ApiResponseData + Thrown) :=
  try_catch
    (startTime ← Date_now;
     response ← executeRequest method url headers options timeout;
     endTime ← Date_now;
     let responseTime := endTime - startTime in
     result ← await (parseResponse response method url responseTime);
     emit (Metric responseTime);;
     log INFO ("← " +:+ pretty (status result) +:+ " " +:+ statusText result
               +:+ " (" +:+ pretty responseTime +:+ "ms)") None;;
     mret (inl result))
    (fun error =>
       (if attempt <? maxRetries then
          log WARN ("Request failed (attempt " +:+ pretty attempt +:+ "/"
                    +:+ pretty maxRetries +:+ "). Retrying...") None;;
          sleep (1000 * attempt)
        else mret tt);;
       mret (inr error)).

(** [for (let attempt = 1; attempt <= maxRetries; attempt++)]: the loop
    variable is not assigned in the body, so the loop runs over the
    values [attempts] it takes, until a [return]. *)
Fixpoint attempt_loop (method url : string)
         (headers : gmap string string) (options : ApiRequestOptions)
         (timeout maxRetries : Z) (attempts : list Z) (lastError : Thrown)
  : M (ApiResponseData + Thrown) :=
  match attempts with
  | [] => mret (inr lastError)
  | attempt :: rest =>
      r ← attempt_body method url headers options timeout maxRetries attempt;
      match r with
      | inl result => mret (inl result)
      | inr lastError' =>
          attempt_loop method url headers options timeout maxRetries
                       rest lastError'
      end
  end.

Definition makeRequest (this : Client) (method path : string)
           (options : ApiRequestOptions) : M ApiResponseData :=
  let url :=
    if String.prefix "http" path then path else baseUrl this +:+ path in
  let headers := spread (defaultHeaders this) (opt_headers options) in
  let timeout := or_default (opt_timeout options) (API_TIMEOUT ENV_CONFIG) in
  let maxRetries := nullish (opt_retries options) 1 in
  log INFO ("→ " +:+ method +:+ " " +:+ url) None;;
  (if truthy_opt (opt_body options)
   then log DEBUG "Request body:" (opt_body options) else mret tt);;
  r ← attempt_loop method url headers options timeout maxRetries
                   (seqZ 1 maxRetries) None;
  match r with
  | inl result => mret result
  | inr lastError =>
      log ERROR ("Request FAILED after " +:+ pretty maxRetries
                 +:+ " attempts: " +:+ method +:+ " " +:+ url) None;;
      throw lastError
  end.

Definition get (this : Client) (path : string) (options : ApiRequestOptions)
  : M ApiResponseData := makeRequest this "GET" path options.
Definition post (this : Client) (path : string) (options : ApiRequestOptions)
  : M ApiResponseData := makeRequest this "POST" path options.
Definition put (this : Client) (path : string) (options : ApiRequestOptions)
  : M ApiResponseData := makeRequest this "PUT" path options.
Definition patch (this : Client) (path : string) (options : ApiRequestOptions)
  : M ApiResponseData := makeRequest this "PATCH" path options.
Definition delete (this : Client) (path : string) (options : ApiRequestOptions)
  : M ApiResponseData := makeRequest this "DELETE" path options.

End Operations.

(** ** Reading a trace *)

(** The answers of the transport to the attempts made, in order. *)
Definition answers (tr : list Event) : list (Error + APIResponse) :=
  omap (fun ev => match ev with Request _ _ _ a => Some a | _ => None end) tr.

(** The URLs the attempts were sent to. *)
Definition request_urls (tr : list Event) : list string :=
  omap (fun ev => match ev with Request _ u _ _ => Some u | _ => None end) tr.

(** The delays slept through. *)
Definition sleeps (tr : list Event) : list Z :=
  omap (fun ev => match ev with Sleep ms => Some ms | _ => None end) tr.

(** Attempts and delays, in the order they happened. *)
Inductive Tick : Type :=
| Attempt (a : Error + APIResponse)
| Wait (ms : Z).

Definition timeline (tr : list Event) : list Tick :=
  omap (fun ev =>
          match ev with
          | Request _ _ _ a => Some (Attempt a)
          | Sleep ms => Some (Wait ms)
          | _ => None
          end) tr.

(** Linear backoff: the attempts answered by [a1, a2, ..], numbered from
    [k], with a delay of [1000 * k] after attempt [k] when another
    attempt follows. *)
Fixpoint backoff_schedule (k : Z) (ans : list (Error + APIResponse))
  : list Tick :=
  match ans with
  | [] => []
  | a :: rest =>
      match rest with
      | [] => [Attempt a]
      | _ :: _ => Attempt a :: Wait (1000 * k) :: backoff_schedule (k + 1) rest
      end
  end.

(** The error the loop is left with: [lastError], overwritten by every
    failed attempt. *)
Definition final_error (lastError : Thrown) (ans : list (Error + APIResponse))
  : Thrown :=
  fold_left (fun acc a => match a with inl e => Some e | inr _ => acc end)
            ans lastError.

(** The transport threw. *)
Definition failed (a : Error + APIResponse) : Prop :=
  match a with inl _ => True | inr _ => False end.

Definition wait_of (t : Tick) : option Z :=
  match t with Wait ms => Some ms | Attempt _ => None end.

(** The error of [executeRequest] for a method it does not dispatch. *)
Definition unsupported (method : string) : Error :=
  {| message := "Unsupported HTTP method: " +:+ method |}.

(** ** The runs of the attempt loop *)

Section Runs.
Context {W : Type} (R : Runtime W).
Variables (method url : string) (maxRetries : Z).

(** The runs of the [for] loop of [makeRequest], one rule for each way an
    iteration can go: the transport answers and the body is read; the
    transport throws; the method is not dispatched; the transport answers
    and the body cannot be read.  A throw in the [try] block is followed
    by a delay when the budget is not used up. *)
Inductive loop_run :
  list Z -> Thrown -> W ->
  completion Thrown (ApiResponseData + Thrown) * W * list Event -> Prop :=
| run_end lastError w :
    loop_run [] lastError w (Normal (inr lastError), w, [])
| run_return attempt rest lastError w v ro r w1 d msg :
    method = verb_name v ->
    rt_request R v url ro w = (inr r, w1) ->
    parseResponse r method url (rt_now R w1 - rt_now R w) = inr d ->
    loop_run (attempt :: rest) lastError w
      (Normal (inl d),
       w1,
       [Request v url ro (inr r); Metric (rt_now R w1 - rt_now R w);
        Log INFO msg None])
| run_retry attempt rest lastError w v ro e w1 msg res w2 t2 :
    method = verb_name v ->
    rt_request R v url ro w = (inl e, w1) ->
    attempt < maxRetries ->
    loop_run rest (Some e) (rt_sleep R (1000 * attempt) w1) (res, w2, t2) ->
    loop_run (attempt :: rest) lastError w
      (res, w2,
       Request v url ro (inl e) :: Log WARN msg None :: Sleep (1000 * attempt)
       :: t2)
| run_give_up attempt rest lastError w v ro e w1 res w2 t2 :
    method = verb_name v ->
    rt_request R v url ro w = (inl e, w1) ->
    maxRetries <= attempt ->
    loop_run rest (Some e) w1 (res, w2, t2) ->
    loop_run (attempt :: rest) lastError w
      (res, w2, Request v url ro (inl e) :: t2)
| run_unsupported_retry attempt rest lastError w msg res w2 t2 :
    (forall v, method <> verb_name v) ->
    attempt < maxRetries ->
    loop_run rest (Some (unsupported method)) (rt_sleep R (1000 * attempt) w)
             (res, w2, t2) ->
    loop_run (attempt :: rest) lastError w
      (res, w2, Log WARN msg None :: Sleep (1000 * attempt) :: t2)
| run_unsupported_give_up attempt rest lastError w res w2 t2 :
    (forall v, method <> verb_name v) ->
    maxRetries <= attempt ->
    loop_run rest (Some (unsupported method)) w (res, w2, t2) ->
    loop_run (attempt :: rest) lastError w (res, w2, t2)
| run_unreadable_retry attempt rest lastError w v ro r e w1 msg res w2 t2 :
    method = verb_name v ->
    rt_request R v url ro w = (inr r, w1) ->
    resp_text r = inl e ->
    attempt < maxRetries ->
    loop_run rest (Some e) (rt_sleep R (1000 * attempt) w1) (res, w2, t2) ->
    loop_run (attempt :: rest) lastError w
      (res, w2,
       Request v url ro (inr r) :: Log WARN msg None :: Sleep (1000 * attempt)
       :: t2)
| run_unreadable_give_up attempt rest lastError w v ro r e w1 res w2 t2 :
    method = verb_name v ->
    rt_request R v url ro w = (inr r, w1) ->
    resp_text r = inl e ->
    maxRetries <= attempt ->
    loop_run rest (Some e) w1 (res, w2, t2) ->
    loop_run (attempt :: rest) lastError w
      (res, w2, Request v url ro (inr r) :: t2).
End Runs.

(** ** A scripted transport

    The world is the number of calls made so far and the clock.  The
    [n]-th call is answered by the [n]-th entry of the script, and by a
    refused connection once the script is used up; a call takes 5 ms and
    a sleep of [ms] takes [ms]. *)
Definition scripted (script : list (Error + APIResponse)) : Runtime (nat * Z) :=
  {| rt_request := fun _ _ _ '(n, t) =>
       (default (inl {| message := "connect ECONNREFUSED" |}) (script !! n),
        (S n, t + 5));
     rt_now := fun '(_, t) => t;
     rt_sleep := fun ms '(n, t) => (n, t + ms) |}.

Definition default_env : EnvironmentConfig :=
  {| API_BASE_URL := "https://jsonplaceholder.typicode.com";
     API_TIMEOUT := 15000 |}.

(** [new ApiClient(request, "https://api.example")] *)
Definition example_client : Client :=
  {| baseUrl := "https://api.example";
     defaultHeaders :=
       <["Accept" := "application/json"]>
         {["Content-Type" := "application/json"]} |}.

Definition with_retries (n : Z) : ApiRequestOptions :=
  {| opt_headers := None; opt_params := None; opt_body := None;
     opt_timeout := None; opt_retries := Some n |}.

Definition not_found : APIResponse :=
  {| resp_status := 404;
     resp_statusText := "Not Found";
     resp_text := inr "{}";
     resp_headers := {["content-type" := "application/json"]} |}.

Definition plain_text : APIResponse :=
  {| resp_status := 200;
     resp_statusText := "OK";
     resp_text := inr "not-json{";
     resp_headers := {["Content-Type" := "text/plain"]} |}.

Definition json_object : APIResponse :=
  {| resp_status := 200;
     resp_statusText := "OK";
     resp_text := inr ("{" +:+ quote +:+ "a" +:+ quote +:+ ":1}");
     resp_headers := {["content-type" := "application/json"]} |}.

Definition reset (k : Z) : Error :=
  {| message := "read ECONNRESET #" +:+ pretty k |}.

(** A response with status 404 whose body cannot be read: [text()] is
    rejected. *)
Definition disposed : Error :=
  {| message := "apiResponse.text: Response has been disposed" |}.

Definition unreadable : APIResponse :=
  {| resp_status := 404;
     resp_statusText := "Not Found";
     resp_text := inl disposed;
     resp_headers := {["content-type" := "application/json"]} |}.

(** ** More of the trace *)

(** The method name [executeRequest] dispatches on, as a call of the
    transport. *)
Definition verb_of (method : string) : option Verb :=
  if String.eqb method "GET" then Some GET
  else if String.eqb method "POST" then Some POST
  else if String.eqb method "PUT" then Some PUT
  else if String.eqb method "PATCH" then Some PATCH
  else if String.eqb method "DELETE" then Some DELETE
  else None.

(** The [requestOptions] object [executeRequest] builds. *)
Definition requestOptions (method : string) (headers : gmap string string)
           (options : ApiRequestOptions) (timeout : Z) : RequestOptions :=
  {| rq_headers := headers;
     rq_timeout := timeout;
     rq_params := opt_params options;
     rq_data :=
       if truthy_opt (opt_body options)
          && bool_decide (method ∈ ["POST"; "PUT"; "PATCH"])
       then opt_body options else None |}.

(** The calls made to the transport: verb, URL and request options. *)
Definition requests (tr : list Event) : list (Verb * string * RequestOptions) :=
  omap (fun ev =>
          match ev with
          | Request v u ro _ => Some (v, u, ro)
          | _ => None
          end) tr.

(** The response times handed to the metrics collector. *)
Definition metrics (tr : list Event) : list Z :=
  omap (fun ev => match ev with Metric ms => Some ms | _ => None end) tr.

(** The lines logged at a given level. *)
Definition logged (level : LogLevel) (tr : list Event) : list string :=
  omap (fun ev =>
          match ev with
          | Log l msg _ =>
              match l, level with
              | ERROR, ERROR | WARN, WARN | INFO, INFO | DEBUG, DEBUG => Some msg
              | _, _ => None
              end
          | _ => None
          end) tr.

(** The options of a call that creates a post. *)
Definition post_options : ApiRequestOptions :=
  {| opt_headers := Some {["Authorization" := "Basic dXNlcg=="]};
     opt_params := Some {["page" := "2"]};
     opt_body := Some (JsObject [("title", JsString "t");
                                 ("userId", JsNumber 1 0)]);
     opt_timeout := Some 0;
     opt_retries := None |}.

(** An event other than a call of the transport. *)
Definition quiet (ev : Event) : Prop :=
  match ev with Request _ _ _ _ => False | _ => True end.

(** A line of the log. *)
Definition logline (ev : Event) : Prop :=
  match ev with Log _ _ _ => True | _ => False end.

(** The sum of a list of delays. *)
Definition total (delays : list Z) : Z := foldr Z.add 0 delays.

(** An absolute URL as the specification detects it, by a URL-scheme
    prefix: a letter, then letters, digits, [+], [-] or [.], then a
    colon. *)
Definition is_scheme_char (c : ascii) : bool :=
  let n := N_of_ascii c in
  (((97 <=? n) && (n <=? 122)) || ((65 <=? n) && (n <=? 90))
   || ((48 <=? n) && (n <=? 57)) || (n =? 43) || (n =? 45) || (n =? 46))%N.

Fixpoint scheme_ends (s : string) : bool :=
  match s with
  | EmptyString => false
  | String c s' =>
      if Ascii.eqb c ":" then true else is_scheme_char c && scheme_ends s'
  end.

Definition has_url_scheme (path : string) : bool :=
  match path with
  | EmptyString => false
  | String c s' =>
      let n := N_of_ascii c in
      (((97 <=? n) && (n <=? 122)) || ((65 <=? n) && (n <=? 90)))%N
      && scheme_ends s'
  end.

(** Whether a request of that verb may carry a body. *)
Definition carries_body (v : Verb) : bool :=
  match v with POST | PUT | PATCH => true | GET | DELETE => false end.

End ApiClient.

(** * [src/core/utils/auto-heal.ts] *)
Module AutoHeal.

(** ** Data *)

Record AutoHealConfig : Type := {
  enabled : bool;
  timeout : Z;
  logWarnings : bool
}.

Definition DEFAULT_CONFIG : AutoHealConfig :=
  {| enabled := true; timeout := 5000; logWarnings := true |}.

Record ElementContext : Type := {
  originalSelector : string;
  role : option string;
  text : option string;
  placeholder : option string;
  testId : option string
}.

(** A Playwright [Locator], by the calls that build it on the page. *)
Inductive Locator : Type :=
| locator (selector : string)
| getByRole (role : string) (name : option string)
| getByText (text : string) (exact : bool)
| getByPlaceholder (text : string)
| getByTestId (testId : string)
| first (l : Locator).

Record HealingStrategy : Type := {
  name : string;
  locate : ElementContext -> Locator
}.

Definition HEALING_STRATEGIES : list HealingStrategy :=
  [ {| name := "By Role";
       locate := fun ctx =>
         match nonempty (role ctx) with
         | None => locator "__nonexistent__"
         | Some r => getByRole r (nonempty (text ctx))
         end |};
    {| name := "By Text (exact)";
       locate := fun ctx =>
         match nonempty (text ctx) with
         | None => locator "__nonexistent__"
         | Some t => getByText t true
         end |};
    {| name := "By Placeholder";
       locate := fun ctx =>
         match nonempty (placeholder ctx) with
         | None => locator "__nonexistent__"
         | Some p => getByPlaceholder p
         end |};
    {| name := "By Test ID";
       locate := fun ctx =>
         match nonempty (testId ctx) with
         | None => locator "__nonexistent__"
         | Some i => getByTestId i
         end |};
    {| name := "By Text (partial)";
       locate := fun ctx =>
         match nonempty (text ctx) with
         | None => locator "__nonexistent__"
         | Some t => getByText t false
         end |} ].

(** ** The page *)

(** [rt_waitFor l ms] is [l.waitFor({ state: 'visible', timeout: ms })]
    on the page of the world: [None] when the element became visible,
    [Some e] when the call throws [e]. *)
Record Runtime (W : Type) : Type := {
  rt_waitFor : Locator -> Z -> W -> option Error * W
}.
Arguments rt_waitFor {W} _ _ _ _.

Inductive Event : Type :=
| WaitFor (l : Locator) (timeout : Z) (visible : bool)
| Log (level : LogLevel) (msg : string).

(** ** The functions *)

Section Operations.
Context {W : Type} (R : Runtime W).

#[local] Abbreviation M := (Eff W Event Error).

Definition log (level : LogLevel) (msg : string) : M unit :=
  emit (Log level msg).

Definition waitFor (l : Locator) (timeout : Z) : M unit :=
  fun w =>
    match rt_waitFor R l timeout w with
    | (None, w') => (Normal tt, w', [WaitFor l timeout true])
    | (Some e, w') => (Throw e, w', [WaitFor l timeout false])
    end.

(** The body of [for (const strategy of HEALING_STRATEGIES)]:
    [Some l] is the [return] of the [try] block, [None] the end of the
    [catch] block. *)
Definition try_strategy (strategy : HealingStrategy)
           (context : ElementContext) (config : AutoHealConfig)
  : M (option Locator) :=
  try_catch
    (let alternativeLocator := locate strategy context in
     waitFor (first alternativeLocator) 2000;;
     (if logWarnings config then
        log WARN ("✅ Auto-healed! Strategy " +:+ quote +:+ name strategy
                  +:+ quote +:+ " found the element. "
                  +:+ "Please update locator: " +:+ quote
                  +:+ originalSelector context +:+ quote)
      else mret tt);;
     mret (Some (first alternativeLocator)))
    (fun _ =>
       log DEBUG ("Strategy " +:+ quote +:+ name strategy
                  +:+ quote +:+ " did not find element.");;
       mret None).

Fixpoint heal_loop (strategies : list HealingStrategy)
         (context : ElementContext) (config : AutoHealConfig)
  : M (option Locator) :=
  match strategies with
  | [] => mret None
  | strategy :: rest =>
      r ← try_strategy strategy context config;
      match r with
      | Some found => mret (Some found)
      | None => heal_loop rest context config
      end
  end.

Definition autoHealLocator (primaryLocator : Locator)
           (context : ElementContext) (config : AutoHealConfig)
  : M Locator :=
  r ← try_catch
        (waitFor primaryLocator (timeout config);;
         mret (Some primaryLocator))
        (fun _ =>
           if negb (enabled config) then
             throw {| message :=
                       "Element not found: " +:+ quote
                       +:+ originalSelector context +:+ quote
                       +:+ ". Auto-heal is disabled." |}
           else
             (if logWarnings config then
                log WARN ("Primary locator FAILED: " +:+ quote
                          +:+ originalSelector context +:+ quote
                          +:+ ". Attempting auto-heal...")
              else mret tt);;
             mret None);
  match r with
  | Some found => mret found
  | None =>
      h ← heal_loop HEALING_STRATEGIES context config;
      match h with
      | Some found => mret found
      | None =>
          log ERROR ("❌ Auto-heal FAILED for " +:+ quote
                     +:+ originalSelector context +:+ quote +:+ ". "
                     +:+ "No alternative strategies could find the element.");;
          throw {| message :=
                    "Auto-heal exhausted all strategies for: " +:+ quote
                    +:+ originalSelector context +:+ quote +:+ ". "
                    +:+ "Element not found on the page." |}
      end
  end.

(** [resilientLocator(page, selector, healContext)()] *)
Definition resilientLocator (selector : string)
           (healContext : ElementContext) : M Locator :=
  autoHealLocator (locator selector)
    {| originalSelector := selector;
       role := role healContext;
       text := text healContext;
       placeholder := placeholder healContext;
       testId := testId healContext |}
    DEFAULT_CONFIG.

End Operations.

(** ** A page that does not change

    The part of the selector engine that the locators above reach, on a
    page given by its elements in document order.  A selector string
    without an engine prefix is CSS: an identifier is a type selector and
    selects the elements of that tag name, [#x] selects the element
    whose [id] is [x]; other CSS is outside this model and selects
    nothing.  [getByText], [getByPlaceholder] and [getByTestId] are read
    off the text and the attributes of an element.  [getByRole] is read
    off the accessibility tree, which the page gives: [ariaRole] is the
    role the browser computes for the element, [None] when it has no
    role or is hidden from the tree (as an [a] without [href], or an
    element under [display: none] or [aria-hidden], is), and [ariaName]
    is its accessible name. *)
Record Element : Type := {
  tagName : string;
  attributes : gmap string string;
  textContent : string;
  isVisible : bool;
  ariaRole : option string;
  ariaName : string
}.

Definition is_ident_char (c : ascii) : bool :=
  let n := N_of_ascii c in
  (((97 <=? n) && (n <=? 122)) || ((65 <=? n) && (n <=? 90))
   || ((48 <=? n) && (n <=? 57)) || (n =? 95) || (n =? 45) || (128 <=? n))%N.

Definition is_css_ident (s : string) : bool :=
  match s with
  | EmptyString => false
  | String c _ =>
      negb (Json.is_digit c) && negb (Ascii.eqb c "-")
      && forallb is_ident_char (list_ascii_of_string s)
  end.

Definition includes_ci (needle hay : string) : bool :=
  includes (lower_case needle) (lower_case hay).

Definition matches (l : Locator) (e : Element) : bool :=
  match l with
  | locator selector =>
      match selector with
      | String "#" ident => bool_decide (attributes e !! "id" = Some ident)
      | _ =>
          is_css_ident selector
          && String.eqb (lower_case (tagName e)) (lower_case selector)
      end
  | getByRole r n =>
      bool_decide (ariaRole e = Some r)
      && match n with
         | Some n' => includes_ci n' (ariaName e)
         | None => true
         end
  | getByText t exact =>
      if exact then String.eqb (textContent e) t
      else includes_ci t (textContent e)
  | getByPlaceholder t =>
      match attributes e !! "placeholder" with
      | Some p => includes_ci t p
      | None => false
      end
  | getByTestId i => bool_decide (attributes e !! "data-testid" = Some i)
  | first _ => false
  end.

(** The elements a locator resolves to. *)
Fixpoint select (page : list Element) (l : Locator) : list Element :=
  match l with
  | first l' => take 1 (select page l')
  | _ => List.filter (matches l) page
  end.

(** [waitFor] is strict: it needs the locator to resolve to one element,
    and that element to be visible. *)
Definition visible_on (page : list Element) (l : Locator) : bool :=
  match select page l with
  | [e] => isVisible e
  | _ => false
  end.

(** A page on which what is visible does not change while the test
    waits: [vis l] tells whether [l.waitFor] succeeds. *)
Definition fixed_page (vis : Locator -> bool) : Runtime unit :=
  {| rt_waitFor := fun l ms w =>
       (if vis l then None
        else Some {| message := "locator.waitFor: Timeout " +:+ pretty ms
                                +:+ "ms exceeded." |}, w) |}.

Definition static_page (page : list Element) : Runtime unit :=
  fixed_page (visible_on page).

(** ** Reading a trace *)

(** The waits made, in order: locator, bound, and whether the element
    became visible. *)
Definition waits (tr : list Event) : list (Locator * Z * bool) :=
  omap (fun ev =>
          match ev with
          | WaitFor l ms visible => Some (l, ms, visible)
          | Log _ _ => None
          end) tr.

(** The wait that trying [strategy] amounts to. *)
Definition strategy_wait (context : ElementContext) (visible : bool)
           (strategy : HealingStrategy) : Locator * Z * bool :=
  (first (locate strategy context), 2000, visible).

(** The error of [autoHealLocator] when no strategy finds the element. *)
Definition exhausted (context : ElementContext) : Error :=
  {| message := "Auto-heal exhausted all strategies for: " +:+ quote
                +:+ originalSelector context +:+ quote +:+ ". "
                +:+ "Element not found on the page." |}.

(** The context field each strategy of [HEALING_STRATEGIES] requires, in
    the order of the list. *)
Definition required_fields : list (ElementContext -> option string) :=
  [role; text; placeholder; testId; text].

(** An element named like the selector the strategies fall back to. *)
Definition stray_element : Element :=
  {| tagName := "__nonexistent__";
     attributes := ∅;
     textContent := "Delete account";
     isVisible := true;
     ariaRole := None;
     ariaName := EmptyString |}.

Definition login_button : Element :=
  {| tagName := "button";
     attributes := {["id" := "login-btn"]};
     textContent := "Login";
     isVisible := true;
     ariaRole := Some "button";
     ariaName := "Login" |}.

Definition login_link : Element :=
  {| tagName := "span";
     attributes := ∅;
     textContent := "Login to your account";
     isVisible := true;
     ariaRole := None;
     ariaName := EmptyString |}.

(** A context that gives no hint at all. *)
Definition bare_context (selector : string) : ElementContext :=
  {| originalSelector := selector; role := None; text := None;
     placeholder := None; testId := None |}.

(** [{ role: 'button', text: 'Login', originalSelector: selector }] *)
Definition button_context (selector : string) : ElementContext :=
  {| originalSelector := selector; role := Some "button";
     text := Some "Login"; placeholder := None; testId := None |}.

(** The warnings logged. *)
Definition warnings (tr : list Event) : list string :=
  omap (fun ev => match ev with Log WARN msg => Some msg | _ => None end) tr.

(** [config] with [logWarnings] set. *)
Definition with_logWarnings (b : bool) (config : AutoHealConfig)
  : AutoHealConfig :=
  {| enabled := enabled config; timeout := timeout config; logWarnings := b |}.

End AutoHeal.

(** * [src/api/helpers/ApiValidator.ts]

    The validators take an [ApiResponseData] and return, or throw: the
    error of a failed [expect], or a [TypeError] (of reading a property
    of [null], or of a matcher handed a value it cannot search).  They
    touch nothing but the log, so their world is [unit]. *)
Module ApiValidator.
Import ApiClient.

Inductive Thrown : Type :=
| ExpectationFailed
| TypeError.

Inductive Event : Type :=
| Log (level : LogLevel) (msg : string).

#[local] Abbreviation M := (Eff unit Event Thrown).

Definition log_info (msg : string) : M unit := emit (Log INFO msg).

(** [expect(received).toBe(expected)] on numbers. *)
Definition expect_toBe (received expected : Z) : M unit :=
  if received =? expected then mret tt else throw ExpectationFailed.

(** [expect(received).toBeLessThanOrEqual(expected)] *)
Definition expect_toBeLessThanOrEqual (received expected : Z) : M unit :=
  if received <=? expected then mret tt else throw ExpectationFailed.

(** [expect(received).toBeGreaterThan(expected)] *)
Definition expect_toBeGreaterThan (received expected : Z) : M unit :=
  if expected <? received then mret tt else throw ExpectationFailed.

(** The property names every plain object inherits from
    [Object.prototype]. *)
Definition Object_prototype : list string :=
  ["constructor"; "__proto__"; "hasOwnProperty"; "isPrototypeOf";
   "propertyIsEnumerable"; "toLocaleString"; "toString"; "valueOf";
   "__defineGetter__"; "__defineSetter__"; "__lookupGetter__";
   "__lookupSetter__"].

(** What [o[name]] gives on a plain object whose own properties are
    strings: the own property, else the member inherited from
    [Object.prototype] (a function, or the prototype itself), else
    [undefined]. *)
Inductive Property : Type :=
| Own (value : string)
| Inherited
| Undefined.

Definition get_property (o : gmap string string) (name : string) : Property :=
  match o !! name with
  | Some value => Own value
  | None =>
      if bool_decide (name ∈ Object_prototype) then Inherited else Undefined
  end.

(** [expect(received).toContain(expected)] for a string [expected]: a
    received string is searched; [undefined] fails the expectation; an
    inherited member is neither a string nor a collection, and the
    matcher throws a [TypeError]. *)
Definition expect_toContain (received : Property) (expected : string)
  : M unit :=
  match received with
  | Own actual =>
      if includes expected actual then mret tt else throw ExpectationFailed
  | Undefined => throw ExpectationFailed
  | Inherited => throw TypeError
  end.

Definition validateStatus (response : ApiResponseData) (expectedStatus : Z)
  : M unit :=
  log_info ("Validating status: expected " +:+ pretty expectedStatus
            +:+ ", got " +:+ pretty (status response));;
  expect_toBe (status response) expectedStatus;;
  log_info ("✅ Status " +:+ pretty expectedStatus +:+ " verified.").

Definition validateResponseTime (response : ApiResponseData) (maxTimeMs : Z)
  : M unit :=
  log_info ("Validating response time: " +:+ pretty (responseTime response)
            +:+ "ms <= " +:+ pretty maxTimeMs +:+ "ms");;
  expect_toBeLessThanOrEqual (responseTime response) maxTimeMs;;
  log_info ("✅ Response time (" +:+ pretty (responseTime response)
            +:+ "ms) is within threshold.").

(** [validateHeaders]; [expectedHeaders] is the list
    [Object.entries(expectedHeaders)] the loop runs over. *)
Fixpoint validateHeaders (response : ApiResponseData)
         (expectedHeaders : list (string * string)) : M unit :=
  match expectedHeaders with
  | [] => mret tt
  | (key, value) :: rest =>
      log_info ("Validating header: " +:+ key +:+ " contains "
                +:+ quote +:+ value +:+ quote);;
      let actualValue := get_property (headers response) (lower_case key) in
      expect_toContain actualValue value;;
      log_info ("✅ Header " +:+ quote +:+ key +:+ quote +:+ " verified.");;
      validateHeaders response rest
  end.

(** What one turn of that loop expects of the response. *)
Definition header_ok (response : ApiResponseData) (kv : string * string)
  : bool :=
  match headers response !! lower_case kv.1 with
  | Some actual => includes kv.2 actual
  | None => false
  end.

(** What that turn throws when the response does not meet it. *)
Definition header_failure (response : ApiResponseData) (key : string)
  : Thrown :=
  match get_property (headers response) (lower_case key) with
  | Inherited => TypeError
  | Own _ | Undefined => ExpectationFailed
  end.

(** An array index: the decimal numeral of a natural number, without a
    sign or a leading zero. *)
Definition array_index (key : string) : option nat :=
  let cs := list_ascii_of_string key in
  if forallb Json.is_digit cs then
    let i := Z.to_nat (Json.digits_val cs) in
    if String.eqb (pretty i) key then Some i else None
  else None.

Fixpoint own_property (key : string) (fields : list (string * JsValue))
  : option JsValue :=
  match fields with
  | [] => None
  | (k, v) :: rest => if String.eqb k key then Some v else own_property key rest
  end.

(** [body[key]], as far as [Array.isArray] and [length] tell it apart:
    the items when it is an array, [None] when it is [undefined] or
    anything else.  Reading a property of [null] throws.  The one array
    that is inherited is [Array.prototype], the empty array an array has
    as its [__proto__]. *)
Definition array_at (body : JsValue) (key : string)
  : Thrown + option (list JsValue) :=
  match body with
  | JsNull => inl TypeError
  | JsObject fields =>
      match own_property key fields with
      | Some (JsArray items) => inr (Some items)
      | _ => inr None
      end
  | JsArray items =>
      match array_index key with
      | Some i =>
          match items !! i with
          | Some (JsArray inner) => inr (Some inner)
          | _ => inr None
          end
      | None =>
          if String.eqb key "__proto__" then inr (Some []) else inr None
      end
  | JsBool _ | JsNumber _ _ | JsString _ => inr None
  end.

Definition validateBodyIsArray (response : ApiResponseData) (arrayKey : string)
  : M unit :=
  log_info ("Validating body." +:+ arrayKey +:+ " is a non-empty array");;
  match array_at (body response) arrayKey with
  | inl e => throw e
  | inr None => throw ExpectationFailed
  | inr (Some items) =>
      expect_toBeGreaterThan (Z.of_nat (length items)) 0;;
      log_info ("✅ body." +:+ arrayKey +:+ " is an array with "
                +:+ pretty (Z.of_nat (length items)) +:+ " items.")
  end.

(** ** Sample responses *)

(** A response whose text is the JSON [null]. *)
Definition null_body : APIResponse :=
  {| resp_status := 200;
     resp_statusText := "OK";
     resp_text := inr "null";
     resp_headers := {["content-type" := "application/json"]} |}.

(** A response whose text is a JSON object with an array under [data]. *)
Definition user_list : APIResponse :=
  {| resp_status := 200;
     resp_statusText := "OK";
     resp_text := inr ("{" +:+ quote +:+ "data" +:+ quote +:+ ":[1,2],"
                       +:+ quote +:+ "page" +:+ quote +:+ ":1}");
     resp_headers := {["content-type" := "application/json; charset=utf-8"]} |}.

(** The [ApiResponseData] that [parseResponse] makes of [user_list]. *)
Definition user_list_data : ApiResponseData :=
  {| status := 200;
     statusText := "OK";
     body := JsObject [("data", JsArray [JsNumber 1 0; JsNumber 2 0]);
                       ("page", JsNumber 1 0)];
     rawBody := "{" +:+ quote +:+ "data" +:+ quote +:+ ":[1,2],"
                +:+ quote +:+ "page" +:+ quote +:+ ":1}";
     headers := {["content-type" := "application/json; charset=utf-8"]};
     responseTime := 5;
     url := "https://api.example/users";
     method := "GET" |}.

End ApiValidator.

(** * The reference parser on sample texts *)
Module JsonFacts.
Import Json.

Example parse_object :
  JSON_parse ("{" +:+ quote +:+ "a" +:+ quote +:+ ":1}")
  = Some (JsObject [("a", JsNumber 1 0)]).
Proof. reflexivity. Qed.

Example parse_not_json : JSON_parse "not-json{" = None.
Proof. reflexivity. Qed.

Example parse_nested :
  JSON_parse (" [ 1 , 2.50 , -3e2 , true , null , { } , [ ] , "
              +:+ quote +:+ "x\ty" +:+ quote +:+ " ] ")
  = Some (JsArray [JsNumber 1 0; JsNumber 25 (-1); JsNumber (-300) 0;
                   JsBool true; JsNull; JsObject []; JsArray [];
                   JsString (String "x" (String (ascii_of_N 9) "y"))]).
Proof. reflexivity. Qed.

Example parse_duplicate_key :
  JSON_parse ("{" +:+ quote +:+ "a" +:+ quote +:+ ":1,"
              +:+ quote +:+ "b" +:+ quote +:+ ":2,"
              +:+ quote +:+ "a" +:+ quote +:+ ":3}")
  = Some (JsObject [("a", JsNumber 3 0); ("b", JsNumber 2 0)]).
Proof. reflexivity. Qed.

Example parse_string_value :
  JSON_parse (quote +:+ "ok" +:+ quote) = Some (JsString "ok").
Proof. reflexivity. Qed.

Example reject_empty : JSON_parse EmptyString = None.
Proof. reflexivity. Qed.

Example reject_trailing_comma : JSON_parse "[1,]" = None.
Proof. reflexivity. Qed.

Example reject_leading_zero : JSON_parse "01" = None.
Proof. reflexivity. Qed.

Example reject_two_values : JSON_parse "1 2" = None.
Proof. reflexivity. Qed.

Example reject_open_string : JSON_parse (quote +:+ "abc") = None.
Proof. reflexivity. Qed.

End JsonFacts.

(** * Properties of the HTTP client *)
Module ApiClientFacts.
Import ApiClient.

Ltac eff_unfold :=
  unfold mbind, mret, Eff_mbind, Eff_mret, eff_bind, eff_ret, try_catch,
    throw, emit, observe, log, Date_now, sleep, send, await in *;
  cbv beta in *.

(** [parseResponse] is rejected exactly when [text()] is. *)
Lemma parseResponse_rejected response method url responseTime e :
  parseResponse response method url responseTime = inl e
  <-> resp_text response = inl e.
Proof.
  unfold parseResponse. destruct (resp_text response); split; congruence.
Qed.

Lemma parseResponse_fulfilled response method url responseTime d :
  parseResponse response method url responseTime = inr d ->
  resp_text response = inr (rawBody d) /\
  status d = resp_status response /\
  statusText d = resp_statusText response /\
  body d = match Json.JSON_parse (rawBody d) with
           | Some parsed => parsed
           | None => JsString (rawBody d)
           end /\
  responseTime = ApiClient.responseTime d /\
  url = ApiClient.url d /\
  method = ApiClient.method d.
Proof.
  unfold parseResponse. destruct (resp_text response) as [e | rawBody];
    [discriminate |].
  intros [= <-]. simpl. auto 10.
Qed.

Lemma parseResponse_readable response method url responseTime rawBody :
  resp_text response = inr rawBody ->
  exists d, parseResponse response method url responseTime = inr d.
Proof.
  unfold parseResponse. intros ->. eauto.
Qed.

Section Loop.
Context {W : Type} (R : Runtime W).
Variables (method url : string) (headers : gmap string string)
          (options : ApiRequestOptions) (timeout maxRetries : Z).

(** What one call of [executeRequest] does. *)
Lemma executeRequest_run (w : W) :
  (exists v ro r w1,
      method = verb_name v /\ rt_request R v url ro w = (inr r, w1) /\
      executeRequest R method url headers options timeout w
      = (Normal r, w1, [Request v url ro (inr r)]))
  \/ (exists v ro e w1,
      method = verb_name v /\ rt_request R v url ro w = (inl e, w1) /\
      executeRequest R method url headers options timeout w
      = (Throw (Some e), w1, [Request v url ro (inl e)]))
  \/ ((forall v, method <> verb_name v) /\
      executeRequest R method url headers options timeout w
      = (Throw (Some (unsupported method)), w, [])).
Proof.
  unfold executeRequest.
  set (ro := {| rq_headers := headers; rq_timeout := timeout;
                rq_params := _; rq_data := _ |}).
  assert (Hsend : forall v, method = verb_name v ->
            (exists r w1,
                rt_request R v url ro w = (inr r, w1) /\
                send R v url ro w = (Normal r, w1, [Request v url ro (inr r)]))
            \/ (exists e w1,
                rt_request R v url ro w = (inl e, w1) /\
                send R v url ro w = (Throw (Some e), w1, [Request v url ro (inl e)]))).
  { intros v _. unfold send.
    destruct (rt_request R v url ro w) as [[e | r] w1] eqn:Hrq.
    - right. exists e, w1. auto.
    - left. exists r, w1. auto. }
  assert (Hcase : forall v, method = verb_name v ->
            forall c, c = send R v url ro w ->
            (exists v ro r w1,
                method = verb_name v /\ rt_request R v url ro w = (inr r, w1) /\
                c = (Normal r, w1, [Request v url ro (inr r)]))
            \/ (exists v ro e w1,
                method = verb_name v /\ rt_request R v url ro w = (inl e, w1) /\
                c = (Throw (Some e), w1, [Request v url ro (inl e)]))
            \/ ((forall v, method <> verb_name v) /\
                c = (Throw (Some (unsupported method)), w, []))).
  { intros v Hv c ->.
    destruct (Hsend v Hv) as [(r & w1 & Hrq & Hs) | (e & w1 & Hrq & Hs)].
    - left. exists v, ro, r, w1. auto.
    - right; left. exists v, ro, e, w1. auto. }
  clearbody ro.
  destruct (String.eqb_spec method "GET") as [Hm | H1];
    [ apply (Hcase GET Hm); reflexivity | ].
  destruct (String.eqb_spec method "POST") as [Hm | H2];
    [ apply (Hcase POST Hm); reflexivity | ].
  destruct (String.eqb_spec method "PUT") as [Hm | H3];
    [ apply (Hcase PUT Hm); reflexivity | ].
  destruct (String.eqb_spec method "PATCH") as [Hm | H4];
    [ apply (Hcase PATCH Hm); reflexivity | ].
  destruct (String.eqb_spec method "DELETE") as [Hm | H5];
    [ apply (Hcase DELETE Hm); reflexivity | ].
  right; right. split.
  - intros [] Hv; simpl in Hv; congruence.
  - reflexivity.
Qed.

Lemma attempt_body_run (attempt : Z) (w : W) :
  let caught x w1 t1 :=
    if attempt <? maxRetries then
      exists msg,
      attempt_body R method url headers options timeout maxRetries attempt w
      = (Normal (inr x), rt_sleep R (1000 * attempt) w1,
         t1 ++ [Log WARN msg None; Sleep (1000 * attempt)])
    else
      attempt_body R method url headers options timeout maxRetries attempt w
      = (Normal (inr x), w1, t1) in
  match executeRequest R method url headers options timeout w with
  | (Normal r, w1, t1) =>
      match parseResponse r method url (rt_now R w1 - rt_now R w) with
      | inr d =>
          exists msg,
          attempt_body R method url headers options timeout maxRetries attempt w
          = (Normal (inl d), w1,
             t1 ++ [Metric (rt_now R w1 - rt_now R w); Log INFO msg None])
      | inl e => caught (Some e) w1 t1
      end
  | (Throw x, w1, t1) => caught x w1 t1
  end.
Proof.
  unfold attempt_body. eff_unfold. simpl.
  destruct (executeRequest R method url headers options timeout w)
    as [[[r | x] w1] t1] eqn:Hexec; simpl.
  - destruct (parseResponse r method url (rt_now R w1 - rt_now R w))
      as [e | d]; simpl.
    + destruct (attempt <? maxRetries); simpl; rewrite ?app_nil_r.
      * eexists. reflexivity.
      * reflexivity.
    + rewrite ?app_nil_r. eexists. reflexivity.
  - destruct (attempt <? maxRetries); simpl.
    + eexists. reflexivity.
    + rewrite app_nil_r. reflexivity.
Qed.

(** The four ways one iteration of the loop can go: the transport
    answers and the body is read, the transport throws, the method is not
    one [executeRequest] dispatches, or the transport answers and the
    body cannot be read. *)
Lemma attempt_body_cases (attempt : Z) (w : W) :
  (exists v ro r w1 d msg,
      method = verb_name v /\ rt_request R v url ro w = (inr r, w1) /\
      parseResponse r method url (rt_now R w1 - rt_now R w) = inr d /\
      attempt_body R method url headers options timeout maxRetries attempt w
      = (Normal (inl d),
         w1,
         [Request v url ro (inr r); Metric (rt_now R w1 - rt_now R w);
          Log INFO msg None]))
  \/ (exists v ro e w1,
      method = verb_name v /\ rt_request R v url ro w = (inl e, w1) /\
      ((attempt < maxRetries /\ exists msg,
        attempt_body R method url headers options timeout maxRetries attempt w
        = (Normal (inr (Some e)), rt_sleep R (1000 * attempt) w1,
           [Request v url ro (inl e); Log WARN msg None; Sleep (1000 * attempt)]))
       \/ (maxRetries <= attempt /\
        attempt_body R method url headers options timeout maxRetries attempt w
        = (Normal (inr (Some e)), w1, [Request v url ro (inl e)]))))
  \/ ((forall v, method <> verb_name v) /\
      ((attempt < maxRetries /\ exists msg,
        attempt_body R method url headers options timeout maxRetries attempt w
        = (Normal (inr (Some (unsupported method))),
           rt_sleep R (1000 * attempt) w,
           [Log WARN msg None; Sleep (1000 * attempt)]))
       \/ (maxRetries <= attempt /\
        attempt_body R method url headers options timeout maxRetries attempt w
        = (Normal (inr (Some (unsupported method))), w, []))))
  \/ (exists v ro r e w1,
      method = verb_name v /\ rt_request R v url ro w = (inr r, w1) /\
      resp_text r = inl e /\
      ((attempt < maxRetries /\ exists msg,
        attempt_body R method url headers options timeout maxRetries attempt w
        = (Normal (inr (Some e)), rt_sleep R (1000 * attempt) w1,
           [Request v url ro (inr r); Log WARN msg None; Sleep (1000 * attempt)]))
       \/ (maxRetries <= attempt /\
        attempt_body R method url headers options timeout maxRetries attempt w
        = (Normal (inr (Some e)), w1, [Request v url ro (inr r)])))).
Proof.
  pose proof (attempt_body_run attempt w) as Hbody. cbv zeta in Hbody.
  destruct (executeRequest_run w)
    as [(v & ro & r & w1 & Hm & Hrq & Hex)
       | [(v & ro & e & w1 & Hm & Hrq & Hex) | (Hm & Hex)]];
    rewrite Hex in Hbody.
  - destruct (parseResponse r method url (rt_now R w1 - rt_now R w))
      as [e | d] eqn:Hparse.
    + right; right; right. exists v, ro, r, e, w1.
      apply parseResponse_rejected in Hparse.
      repeat split; try assumption.
      revert Hbody. destruct (Z.ltb_spec attempt maxRetries); intros Hbody.
      * left. split; [assumption |]. destruct Hbody as [msg Hbody].
        exists msg. exact Hbody.
      * right. auto.
    + left. destruct Hbody as [msg Hbody]. exists v, ro, r, w1, d, msg.
      repeat split; assumption.
  - right; left. exists v, ro, e, w1. repeat split; try assumption.
    revert Hbody. destruct (Z.ltb_spec attempt maxRetries); intros Hbody.
    + left. split; [assumption |]. destruct Hbody as [msg Hbody].
      exists msg. exact Hbody.
    + right. auto.
  - right; right; left. split; [assumption |].
    revert Hbody. destruct (Z.ltb_spec attempt maxRetries); intros Hbody.
    + left. split; [assumption |]. destruct Hbody as [msg Hbody].
      exists msg. exact Hbody.
    + right. auto.
Qed.


(** One turn of the loop. *)
Lemma attempt_loop_cons (attempt : Z) (rest : list Z) (lastError : Thrown) (w : W) :
  attempt_loop R method url headers options timeout maxRetries
               (attempt :: rest) lastError w
  = match attempt_body R method url headers options timeout maxRetries attempt w with
    | (Normal (inl d), w1, t1) => (Normal (inl d), w1, t1 ++ [])
    | (Normal (inr e), w1, t1) =>
        let '(r, w2, t2) :=
          attempt_loop R method url headers options timeout maxRetries rest e w1 in
        (r, w2, t1 ++ t2)
    | (Throw x, w1, t1) => (Throw x, w1, t1)
    end.
Proof.
  simpl. unfold mbind, Eff_mbind, eff_bind.
  destruct (attempt_body R method url headers options timeout maxRetries attempt w)
    as [[[[d | e] | x] w1] t1]; reflexivity.
Qed.

(** Every execution of the loop is one of its runs. *)
Lemma attempt_loop_run (attempts : list Z) (lastError : Thrown) (w : W) :
  loop_run R method url maxRetries attempts lastError w
    (attempt_loop R method url headers options timeout maxRetries
                  attempts lastError w).
Proof.
  revert lastError w.
  induction attempts as [| attempt rest IH]; intros lastError w.
  - apply run_end.
  - rewrite attempt_loop_cons.
    destruct (attempt_body_cases attempt w)
      as [(v & ro & r & w1 & d & msg & Hm & Hrq & Hparse & ->)
         | [(v & ro & e & w1 & Hm & Hrq & [(Hlt & msg & ->) | (Hge & ->)])
           | [(Hm & [(Hlt & msg & ->) | (Hge & ->)])
             | (v & ro & r & e & w1 & Hm & Hrq & Htext
                & [(Hlt & msg & ->) | (Hge & ->)])]]].
    + eapply run_return; eassumption.
    + specialize (IH (Some e) (rt_sleep R (1000 * attempt) w1)).
      destruct (attempt_loop _ _ _ _ _ _ _ rest _ _) as [[res w2] t2].
      eapply run_retry; eassumption.
    + specialize (IH (Some e) w1).
      destruct (attempt_loop _ _ _ _ _ _ _ rest _ _) as [[res w2] t2].
      eapply run_give_up; eassumption.
    + specialize (IH (Some (unsupported method))
                     (rt_sleep R (1000 * attempt) w)).
      destruct (attempt_loop _ _ _ _ _ _ _ rest _ _) as [[res w2] t2].
      eapply run_unsupported_retry; eassumption.
    + specialize (IH (Some (unsupported method)) w).
      destruct (attempt_loop _ _ _ _ _ _ _ rest _ _) as [[res w2] t2].
      eapply run_unsupported_give_up; eassumption.
    + specialize (IH (Some e) (rt_sleep R (1000 * attempt) w1)).
      destruct (attempt_loop _ _ _ _ _ _ _ rest _ _) as [[res w2] t2].
      eapply run_unreadable_retry; eassumption.
    + specialize (IH (Some e) w1).
      destruct (attempt_loop _ _ _ _ _ _ _ rest _ _) as [[res w2] t2].
      eapply run_unreadable_give_up; eassumption.
Qed.
End Loop.

Section RunFacts.
Context {W : Type} (R : Runtime W).
Variables (method url : string) (maxRetries : Z).

#[local] Abbreviation run := (loop_run R method url maxRetries).

Lemma run_total attempts lastError w res w' tr :
  run attempts lastError w (res, w', tr) -> exists r, res = Normal r.
Proof.
  intros H. remember (res, w', tr) as out eqn:Hout. revert res w' tr Hout.
  induction H; intros res' w' tr' [= <- <- <-]; eauto.
Qed.

(** An attempt that the transport answers with a response whose body can
    be read is the last one, and its answer is what the loop returns. *)
Lemma run_response_last attempts lastError w res w' tr :
  run attempts lastError w (res, w', tr) ->
  forall i r rawBody,
    answers tr !! i = Some (inr r) ->
    resp_text r = inr rawBody ->
    length (answers tr) = S i /\
    exists d, res = Normal (inl d) /\
              parseResponse r method url (responseTime d) = inr d.
Proof.
  intros H. remember (res, w', tr) as out eqn:Hout. revert res w' tr Hout.
  induction H; intros res' w' tr' [= <- <- <-] i r' rawBody Hi Htext;
    simpl in *.
  - discriminate.
  - destruct i as [| i]; simpl in Hi; [| discriminate].
    injection Hi as ->. split; [reflexivity |]. exists d.
    split; [reflexivity |].
    destruct (parseResponse_fulfilled _ _ _ _ _ H1) as (_ & _ & _ & _ & <- & _).
    exact H1.
  - destruct i as [| i]; simpl in Hi; [discriminate |].
    destruct (IHloop_run _ _ _ eq_refl i r' rawBody Hi Htext) as [Hlen Hd].
    split; [lia | exact Hd].
  - destruct i as [| i]; simpl in Hi; [discriminate |].
    destruct (IHloop_run _ _ _ eq_refl i r' rawBody Hi Htext) as [Hlen Hd].
    split; [lia | exact Hd].
  - exact (IHloop_run _ _ _ eq_refl i r' rawBody Hi Htext).
  - exact (IHloop_run _ _ _ eq_refl i r' rawBody Hi Htext).
  - destruct i as [| i]; simpl in Hi.
    + injection Hi as ->. congruence.
    + destruct (IHloop_run _ _ _ eq_refl i r' rawBody Hi Htext) as [Hlen Hd].
      split; [lia | exact Hd].
  - destruct i as [| i]; simpl in Hi.
    + injection Hi as ->. congruence.
    + destruct (IHloop_run _ _ _ eq_refl i r' rawBody Hi Htext) as [Hlen Hd].
      split; [lia | exact Hd].
Qed.

(** What the loop returns is the normalisation of the last answer. *)
Lemma run_returned attempts lastError w res w' tr d :
  run attempts lastError w (res, w', tr) ->
  res = Normal (inl d) ->
  exists r, last (answers tr) = Some (inr r) /\
            parseResponse r method url (responseTime d) = inr d.
Proof.
  intros H. remember (res, w', tr) as out eqn:Hout. revert res w' tr Hout.
  induction H; intros res' w' tr' [= <- <- <-] Hres; simpl in *.
  - discriminate.
  - injection Hres as <-. exists r. split; [reflexivity |].
    destruct (parseResponse_fulfilled _ _ _ _ _ H1) as (_ & _ & _ & _ & <- & _).
    exact H1.
  - destruct (IHloop_run _ _ _ eq_refl Hres) as (r' & Hlast & Hd).
    exists r'. split; [| exact Hd].
    destruct (answers t2); [discriminate | exact Hlast].
  - destruct (IHloop_run _ _ _ eq_refl Hres) as (r' & Hlast & Hd).
    exists r'. split; [| exact Hd].
    destruct (answers t2); [discriminate | exact Hlast].
  - exact (IHloop_run _ _ _ eq_refl Hres).
  - exact (IHloop_run _ _ _ eq_refl Hres).
  - destruct (IHloop_run _ _ _ eq_refl Hres) as (r' & Hlast & Hd).
    exists r'. split; [| exact Hd].
    destruct (answers t2); [discriminate | exact Hlast].
  - destruct (IHloop_run _ _ _ eq_refl Hres) as (r' & Hlast & Hd).
    exists r'. split; [| exact Hd].
    destruct (answers t2); [discriminate | exact Hlast].
Qed.

(** Every attempt goes to [url]; so does the result. *)
Lemma run_urls attempts lastError w res w' tr :
  run attempts lastError w (res, w', tr) ->
  Forall (eq url) (request_urls tr) /\
  forall d, res = Normal (inl d) -> ApiClient.url d = url.
Proof.
  intros H. remember (res, w', tr) as out eqn:Hout. revert res w' tr Hout.
  induction H; intros res' w' tr' [= <- <- <-]; simpl.
  - split; [constructor | discriminate].
  - split; [repeat constructor | intros d' [= <-]].
    destruct (parseResponse_fulfilled _ _ _ _ _ H1)
      as (_ & _ & _ & _ & _ & <- & _).
    reflexivity.
  - destruct (IHloop_run _ _ _ eq_refl). split; [constructor |]; auto.
  - destruct (IHloop_run _ _ _ eq_refl). split; [constructor |]; auto.
  - exact (IHloop_run _ _ _ eq_refl).
  - exact (IHloop_run _ _ _ eq_refl).
  - destruct (IHloop_run _ _ _ eq_refl). split; [constructor |]; auto.
  - destruct (IHloop_run _ _ _ eq_refl). split; [constructor |]; auto.
Qed.


(** The answers of a run are answers of the transport. *)
Lemma run_answers_genuine attempts lastError w res w' tr :
  run attempts lastError w (res, w', tr) ->
  Forall (fun a => exists v ro w0, (rt_request R v url ro w0).1 = a)
         (answers tr).
Proof.
  intros H. remember (res, w', tr) as out eqn:Hout. revert res w' tr Hout.
  induction H; intros res' w' tr' [= <- <- <-]; simpl; eauto;
    constructor; eauto;
    match goal with
    | Hrq : rt_request R ?v url ?ro ?w0 = _ |- _ =>
        exists v, ro, w0; rewrite Hrq; reflexivity
    end.
Qed.

Section Supported.
Variable v : Verb.
Hypothesis supported : method = verb_name v.

(** With a method the client dispatches, every turn of the loop is an
    attempt. *)
Lemma run_attempts_nonempty attempts lastError w res w' tr :
  run attempts lastError w (res, w', tr) ->
  attempts <> [] -> answers tr <> [].
Proof.
  intros H. inversion H; subst; simpl; try congruence;
    exfalso; eapply H5; reflexivity.
Qed.

(** When every attempt fails the loop runs through all of [attempts] and
    ends with the error of the last one. *)
Lemma run_all_failed attempts lastError w res w' tr :
  run attempts lastError w (res, w', tr) ->
  Forall failed (answers tr) ->
  length (answers tr) = length attempts /\
  res = Normal (inr (final_error lastError (answers tr))).
Proof.
  intros H. remember (res, w', tr) as out eqn:Hout. revert res w' tr Hout.
  induction H; intros res' w' tr' [= <- <- <-] Hall; simpl in *.
  - split; reflexivity.
  - inversion Hall as [| ? ? Hf _]; subst. destruct Hf.
  - inversion Hall as [| ? ? _ Hall']; subst.
    destruct (IHloop_run _ _ _ eq_refl Hall') as (Hlen & Hres).
    split; [lia | exact Hres].
  - inversion Hall as [| ? ? _ Hall']; subst.
    destruct (IHloop_run _ _ _ eq_refl Hall') as (Hlen & Hres).
    split; [lia | exact Hres].
  - exfalso. eapply H; exact supported.
  - exfalso. eapply H; exact supported.
  - inversion Hall as [| ? ? Hf _]; subst. destruct Hf.
  - inversion Hall as [| ? ? Hf _]; subst. destruct Hf.
Qed.

(** The attempts and the delays of a run follow the backoff schedule. *)
Lemma run_timeline attempts lastError w res w' tr :
  run attempts lastError w (res, w', tr) ->
  forall k, attempts = seqZ k (maxRetries + 1 - k) ->
  timeline tr = backoff_schedule k (answers tr).
Proof.
  intros H. remember (res, w', tr) as out eqn:Hout. revert res w' tr Hout.
  induction H; intros res' w' tr' [= <- <- <-] k Hk; simpl.
  - reflexivity.
  - reflexivity.
  - assert (Hpos : 0 < maxRetries + 1 - k).
    { destruct (Z.lt_ge_cases 0 (maxRetries + 1 - k)); [assumption |].
      rewrite seqZ_nil in Hk by lia. discriminate. }
    rewrite seqZ_cons in Hk by lia. injection Hk as -> Hrest.
    assert (Hrest' : rest = seqZ (k + 1) (maxRetries + 1 - (k + 1))).
    { rewrite Hrest. f_equal; lia. }
    rewrite (IHloop_run _ _ _ eq_refl (k + 1) Hrest').
    assert (answers t2 <> []) as Hne.
    { eapply run_attempts_nonempty; [eassumption |].
      rewrite Hrest'. rewrite seqZ_cons by lia. discriminate. }
    destruct (answers t2); [congruence | reflexivity].
  - assert (Hpos : 0 < maxRetries + 1 - k).
    { destruct (Z.lt_ge_cases 0 (maxRetries + 1 - k)); [assumption |].
      rewrite seqZ_nil in Hk by lia. discriminate. }
    rewrite seqZ_cons in Hk by lia. injection Hk as -> Hrest.
    rewrite seqZ_nil in Hrest by lia. subst rest.
    inversion H2; subst. reflexivity.
  - exfalso. eapply H; exact supported.
  - exfalso. eapply H; exact supported.
  - assert (Hpos : 0 < maxRetries + 1 - k).
    { destruct (Z.lt_ge_cases 0 (maxRetries + 1 - k)); [assumption |].
      rewrite seqZ_nil in Hk by lia. discriminate. }
    rewrite seqZ_cons in Hk by lia. injection Hk as -> Hrest.
    assert (Hrest' : rest = seqZ (k + 1) (maxRetries + 1 - (k + 1))).
    { rewrite Hrest. f_equal; lia. }
    rewrite (IHloop_run _ _ _ eq_refl (k + 1) Hrest').
    assert (answers t2 <> []) as Hne.
    { eapply run_attempts_nonempty; [eassumption |].
      rewrite Hrest'. rewrite seqZ_cons by lia. discriminate. }
    destruct (answers t2); [congruence | reflexivity].
  - assert (Hpos : 0 < maxRetries + 1 - k).
    { destruct (Z.lt_ge_cases 0 (maxRetries + 1 - k)); [assumption |].
      rewrite seqZ_nil in Hk by lia. discriminate. }
    rewrite seqZ_cons in Hk by lia. injection Hk as -> Hrest.
    rewrite seqZ_nil in Hrest by lia. subst rest.
    inversion H3; subst. reflexivity.
Qed.
End Supported.

(** A failed attempt that leaves budget is followed by another attempt. *)
Lemma run_retry_happens attempts lastError w res w' tr (v : Verb) :
  method = verb_name v ->
  run attempts lastError w (res, w', tr) ->
  forall k, attempts = seqZ k (maxRetries + 1 - k) ->
  forall (i : nat) e, answers tr !! i = Some (inl e) ->
    k + Z.of_nat i < maxRetries ->
    is_Some (answers tr !! S i).
Proof.
  intros supported H. remember (res, w', tr) as out eqn:Hout.
  revert res w' tr Hout.
  induction H; intros res' w' tr' [= <- <- <-] k Hk i e' Hi Hlt; simpl in *.
  - discriminate.
  - destruct i; simpl in Hi; discriminate.
  - assert (Hpos : 0 < maxRetries + 1 - k).
    { destruct (Z.lt_ge_cases 0 (maxRetries + 1 - k)); [assumption |].
      rewrite seqZ_nil in Hk by lia. discriminate. }
    rewrite seqZ_cons in Hk by lia. injection Hk as -> Hrest.
    assert (Hrest' : rest = seqZ (k + 1) (maxRetries + 1 - (k + 1))).
    { rewrite Hrest. f_equal; lia. }
    destruct i as [| i]; simpl in *.
    + assert (answers t2 <> []) as Hne.
      { eapply run_attempts_nonempty; [exact supported | eassumption |].
        rewrite Hrest'. rewrite seqZ_cons by lia. discriminate. }
      destruct (answers t2); [congruence | eexists; reflexivity].
    + eapply (IHloop_run _ _ _ eq_refl (k + 1) Hrest' i e' Hi). lia.
  - assert (Hpos : 0 < maxRetries + 1 - k).
    { destruct (Z.lt_ge_cases 0 (maxRetries + 1 - k)); [assumption |].
      rewrite seqZ_nil in Hk by lia. discriminate. }
    rewrite seqZ_cons in Hk by lia. injection Hk as -> Hrest.
    rewrite seqZ_nil in Hrest by lia. subst rest.
    inversion H2; subst. destruct i; simpl in *; [lia | discriminate].
  - exfalso. eapply H; exact supported.
  - exfalso. eapply H; exact supported.
  - assert (Hpos : 0 < maxRetries + 1 - k).
    { destruct (Z.lt_ge_cases 0 (maxRetries + 1 - k)); [assumption |].
      rewrite seqZ_nil in Hk by lia. discriminate. }
    rewrite seqZ_cons in Hk by lia. injection Hk as -> Hrest.
    assert (Hrest' : rest = seqZ (k + 1) (maxRetries + 1 - (k + 1))).
    { rewrite Hrest. f_equal; lia. }
    destruct i as [| i]; simpl in *; [discriminate |].
    eapply (IHloop_run _ _ _ eq_refl (k + 1) Hrest' i e' Hi). lia.
  - assert (Hpos : 0 < maxRetries + 1 - k).
    { destruct (Z.lt_ge_cases 0 (maxRetries + 1 - k)); [assumption |].
      rewrite seqZ_nil in Hk by lia. discriminate. }
    rewrite seqZ_cons in Hk by lia. injection Hk as -> Hrest.
    rewrite seqZ_nil in Hrest by lia. subst rest.
    inversion H3; subst. destruct i; simpl in *; discriminate.
Qed.
End RunFacts.

(** ** Lists of answers and delays *)

Lemma final_error_last (lastError : Thrown) ans e :
  last ans = Some (inl e) -> final_error lastError ans = Some e.
Proof.
  intros Hlast. apply last_Some in Hlast as [ans' ->].
  unfold final_error. rewrite fold_left_app. reflexivity.
Qed.

Lemma last_failed ans :
  Forall failed ans -> ans <> [] -> exists e, last ans = Some (inl e).
Proof.
  intros Hall Hne.
  destruct (last ans) as [[e | r] |] eqn:Hlast.
  - eauto.
  - apply last_Some in Hlast as [ans' ->].
    apply Forall_app in Hall as [_ Hr]. inversion Hr as [| ? ? Hf _]. destruct Hf.
  - apply last_None in Hlast. contradiction.
Qed.

Lemma sleeps_timeline tr : sleeps tr = omap wait_of (timeline tr).
Proof.
  induction tr as [| [] tr IH]; simpl; try rewrite IH; reflexivity.
Qed.

Lemma backoff_schedule_waits k ans :
  omap wait_of (backoff_schedule k ans)
  = (fun j => 1000 * j) <$> seqZ k (Z.of_nat (length ans) - 1).
Proof.
  revert k. induction ans as [| a rest IH]; intros k.
  - rewrite seqZ_nil by (simpl; lia). reflexivity.
  - destruct rest as [| b rest].
    + rewrite seqZ_nil by (simpl; lia). reflexivity.
    + change (backoff_schedule k (a :: b :: rest))
        with (Attempt a :: Wait (1000 * k) :: backoff_schedule (k + 1) (b :: rest)).
      cbn [omap list_omap wait_of]. rewrite IH.
      rewrite (seqZ_cons k) by (simpl length; lia).
      rewrite fmap_cons. do 2 f_equal. f_equal; simpl length; lia.
Qed.

Lemma backoff_delays_sorted k n :
  Sorted Z.le ((fun j => 1000 * j) <$> seqZ k n).
Proof.
  destruct (Z.le_gt_cases n 0) as [Hn | Hn].
  { rewrite seqZ_nil by lia. constructor. }
  rewrite <- (Z2Nat.id n) by lia. clear Hn. revert k.
  induction (Z.to_nat n) as [| m IH]; intros k.
  - constructor.
  - rewrite seqZ_cons by lia. rewrite fmap_cons.
    replace (Z.pred (Z.of_nat (S m))) with (Z.of_nat m) by lia.
    constructor; [apply IH |].
    destruct m as [| m].
    + constructor.
    + rewrite seqZ_cons by lia. rewrite fmap_cons. constructor. lia.
Qed.

(** ** From the loop to [makeRequest] *)

Section Client.
Context {W : Type} (R : Runtime W) (env : EnvironmentConfig).

Lemma makeRequest_run this method path options w :
  let url :=
    if String.prefix "http" path then path else baseUrl this +:+ path in
  let n := nullish (opt_retries options) 1 in
  let out := makeRequest R env this method path options w in
  exists res w' tr,
    loop_run R method url n (seqZ 1 n) None w (res, w', tr) /\
    result out
    = match res with
      | Normal (inl d) => Normal d
      | Normal (inr e) => Throw e
      | Throw x => Throw x
      end /\
    answers (trace out) = answers tr /\
    request_urls (trace out) = request_urls tr /\
    timeline (trace out) = timeline tr.
Proof.
  intros url n out. subst out. unfold makeRequest. fold url. fold n.
  set (hs := spread _ _). set (to := or_default _ _).
  pose proof (attempt_loop_run R method url hs options to n (seqZ 1 n) None w)
    as Hrun.
  eff_unfold. simpl.
  destruct (truthy_opt (opt_body options)); simpl;
    destruct (attempt_loop R method url hs options to n (seqZ 1 n) None w)
      as [[[[d | e] | x] w'] tr];
    eexists _, w', tr; (split; [exact Hrun |]);
    unfold result, trace, answers, request_urls, timeline; simpl;
    rewrite ?omap_app; simpl; rewrite ?app_nil_r; auto.
Qed.
End Client.

(** ** Response normalisation *)

Lemma assign_all_lookup (l : list (string * string)) (acc : gmap string string) key :
  NoDup l.*1 ->
  fold_left (fun headers '(key, value) => assign key value headers) l acc !! key
  = if decide (key = "__proto__") then acc !! key
    else match (list_to_map l : gmap string string) !! key with
         | Some value => Some value
         | None => acc !! key
         end.
Proof.
  revert acc. induction l as [| [k0 v0] l IH]; intros acc Hnd.
  - simpl. rewrite lookup_empty. destruct (decide _); reflexivity.
  - apply NoDup_cons in Hnd as [Hk0 Hnd]. simpl. rewrite (IH _ Hnd).
    unfold assign.
    destruct (decide (key = "__proto__")) as [-> | Hkey].
    + destruct (String.eqb_spec k0 "__proto__") as [-> | Hne]; [reflexivity |].
      rewrite lookup_insert_ne by congruence. reflexivity.
    + destruct (decide (key = k0)) as [-> | Hne].
      * rewrite lookup_insert_eq.
        rewrite (not_elem_of_list_to_map_1 l k0 Hk0).
        destruct (String.eqb_spec k0 "__proto__"); [congruence |].
        rewrite lookup_insert_eq. reflexivity.
      * rewrite lookup_insert_ne by congruence.
        destruct (list_to_map l !! key); [reflexivity |].
        destruct (String.eqb k0 "__proto__"); [reflexivity |].
        rewrite lookup_insert_ne by congruence. reflexivity.
Qed.

(** The header object of the result is that of the response: every
    property is copied under the name it has. *)
Lemma parseResponse_headers response method url responseTime d :
  parseResponse response method url responseTime = inr d ->
  headers d = base.delete "__proto__" (resp_headers response).
Proof.
  unfold parseResponse. destruct (resp_text response); [discriminate |].
  intros [= <-]. simpl. apply map_eq. intros key.
  rewrite assign_all_lookup by apply NoDup_fst_map_to_list.
  rewrite list_to_map_to_list, lookup_empty.
  destruct (decide (key = "__proto__")) as [-> | Hkey].
  - rewrite lookup_delete_eq. reflexivity.
  - rewrite lookup_delete_ne by congruence.
    destruct (resp_headers response !! key); reflexivity.
Qed.

(** ** The claims about the client *)

Section Claims.
Context {W : Type} (R : Runtime W) (env : EnvironmentConfig).

(** C1, amended.  Whenever the transport answers an attempt with an HTTP
    response, whatever its status, and the body of that response can be
    read, that attempt is the last one made and [makeRequest] returns,
    without throwing, the normalisation of that response, which carries
    its status. *)
Theorem http_status_is_returned this method path options w :
  let out := makeRequest R env this method path options w in
  forall (i : nat) r text,
    answers (trace out) !! i = Some (inr r) ->
    resp_text r = inr text ->
    length (answers (trace out)) = S i /\
    exists d, result out = Normal d /\
              status d = resp_status r /\
              rawBody d = text /\
              parseResponse r method (url d) (responseTime d) = inr d.
Proof.
  intros out i r text Hi Htext. subst out.
  destruct (makeRequest_run R env this method path options w)
    as (res & w' & tr & Hrun & Hres & Hans & _ & _).
  rewrite Hans in *.
  destruct (run_response_last R _ _ _ _ _ _ _ _ _ Hrun i r text Hi Htext)
    as (Hlen & d & -> & Hd).
  split; [exact Hlen |]. exists d. split; [exact Hres |].
  destruct (run_urls R _ _ _ _ _ _ _ _ _ Hrun) as [_ Hurl].
  rewrite (Hurl d eq_refl).
  destruct (parseResponse_fulfilled _ _ _ _ _ Hd) as (Hraw & Hstatus & _).
  split; [exact Hstatus |]. split; [congruence | exact Hd].
Qed.

(** C2.  With a retry budget [n >= 1] and a method the client dispatches:
    if every attempt is answered by a throw, as it is when the transport
    throws on every call, then exactly [n] attempts are made and
    [makeRequest] throws the error of the last one. *)
Theorem retry_exhaustion_propagates this v path options n w :
  opt_retries options = Some n ->
  1 <= n ->
  let out := makeRequest R env this (verb_name v) path options w in
  ((forall v' u ro w0, failed (rt_request R v' u ro w0).1) ->
   Forall failed (answers (trace out))) /\
  (Forall failed (answers (trace out)) ->
   length (answers (trace out)) = Z.to_nat n /\
   exists e, last (answers (trace out)) = Some (inl e) /\
             result out = Throw (Some e)).
Proof.
  intros Hn Hpos out. subst out.
  destruct (makeRequest_run R env this (verb_name v) path options w)
    as (res & w' & tr & Hrun & Hres & Hans & _ & _).
  rewrite Hn in Hrun; simpl in Hrun. rewrite Hans in *. split.
  - intros Hthrows.
    eapply Forall_impl; [exact (run_answers_genuine R _ _ _ _ _ _ _ _ _ Hrun) |].
    intros a (v' & ro & w0 & <-). apply Hthrows.
  - intros Hall.
    destruct (run_all_failed R _ _ _ v eq_refl _ _ _ _ _ _ Hrun Hall)
      as [Hlen ->].
    rewrite length_seqZ in Hlen. split; [exact Hlen |].
    destruct (last_failed _ Hall) as [e He].
    { intros Hnil. rewrite Hnil in Hlen. simpl in Hlen. lia. }
    exists e. split; [exact He |].
    rewrite Hres. rewrite (final_error_last _ _ _ He). reflexivity.
Qed.

(** C10.  With [retries: 0] the loop body is never entered: no attempt is
    made, nothing is slept, and [makeRequest] throws [lastError] as it was
    initialised, [null]. *)
Theorem zero_retries_throws_null this method path options w :
  opt_retries options = Some 0 ->
  let out := makeRequest R env this method path options w in
  nullish (opt_retries options) 1 = 0 /\
  result out = Throw None /\
  answers (trace out) = [] /\
  timeline (trace out) = [].
Proof.
  intros Hn out. subst out.
  destruct (makeRequest_run R env this method path options w)
    as (res & w' & tr & Hrun & Hres & Hans & _ & Htl).
  rewrite Hn in *; simpl in Hrun. change (seqZ 1 0) with (@nil Z) in Hrun.
  inversion Hrun; subst.
  split; [reflexivity |]. rewrite Hres, Hans, Htl. auto.
Qed.
Lemma verb_name_inj v1 v2 : verb_name v1 = verb_name v2 -> v1 = v2.
Proof. destruct v1, v2; simpl; intros H; congruence. Qed.

(** Inverting one turn of a run when the answer of the transport at the
    current world is known. *)
Ltac known_turn Hrun Hrq v :=
  inversion Hrun; subst; clear Hrun;
  try match goal with
      | H : forall v', verb_name v <> verb_name v' |- _ =>
          exfalso; exact (H v eq_refl)
      end;
  try lia;
  match goal with
  | H : verb_name v = verb_name ?v' |- _ =>
      apply verb_name_inj in H; subst v'
  end;
  match goal with
  | H : rt_request _ v _ _ _ = _ |- _ =>
      rewrite Hrq in H; inversion H; subst; clear H
  end;
  try congruence.

(** C9.  The attempts and delays of a request follow the linear backoff
    schedule: a failed attempt [k] that leaves budget is followed by a
    delay of [1000 * k] ms and then by attempt [k + 1]; the delays are
    [1000, 2000, ..] and never decrease.  A transport that throws twice and
    then answers makes a request with [retries: 3] return that answer. *)
Theorem linear_backoff this v path options w :
  let out := makeRequest R env this (verb_name v) path options w in
  let n := nullish (opt_retries options) 1 in
  timeline (trace out) = backoff_schedule 1 (answers (trace out)) /\
  (forall (i : nat) e,
      answers (trace out) !! i = Some (inl e) ->
      Z.of_nat (S i) < n ->
      is_Some (answers (trace out) !! S i)) /\
  sleeps (trace out)
  = (fun k => 1000 * k) <$> seqZ 1 (Z.of_nat (length (answers (trace out))) - 1) /\
  Sorted Z.le (sleeps (trace out)) /\
  (forall e1 e2 r text w1 w2 w3,
      opt_retries options = Some 3 ->
      (forall u ro, rt_request R v u ro w = (inl e1, w1)) ->
      (forall u ro, rt_request R v u ro (rt_sleep R 1000 w1) = (inl e2, w2)) ->
      (forall u ro, rt_request R v u ro (rt_sleep R 2000 w2) = (inr r, w3)) ->
      resp_text r = inr text ->
      timeline (trace out)
      = [Attempt (inl e1); Wait 1000; Attempt (inl e2); Wait 2000;
         Attempt (inr r)] /\
      exists d, result out = Normal d /\
                parseResponse r (verb_name v) (url d) (responseTime d)
                = inr d).
Proof.
  intros out n. subst out.
  destruct (makeRequest_run R env this (verb_name v) path options w)
    as (res & w' & tr & Hrun & Hres & Hans & _ & Htl).
  fold n in Hrun. rewrite !sleeps_timeline, Hans, Htl.
  assert (Hsched : timeline tr = backoff_schedule 1 (answers tr)).
  { eapply run_timeline; [reflexivity | exact Hrun | f_equal; lia]. }
  assert (Hwaits : omap wait_of (timeline tr)
                   = (fun k => 1000 * k) <$> seqZ 1 (Z.of_nat (length (answers tr)) - 1)).
  { rewrite Hsched. apply backoff_schedule_waits. }
  split; [exact Hsched |]. split.
  { intros i e Hi Hlt.
    eapply (run_retry_happens R _ _ _ _ _ _ _ _ _ v eq_refl Hrun 1);
      [f_equal; lia | exact Hi | lia]. }
  split; [exact Hwaits |]. split.
  { rewrite Hwaits. apply backoff_delays_sorted. }
  intros e1 e2 r text w1 w2 w3 Hn H1 H2 H3 Htext.
  subst n. rewrite Hn in Hrun. simpl in Hrun.
  change (seqZ 1 3) with [1; 2; 3] in Hrun.
  known_turn Hrun H1 v.
  match goal with H : loop_run _ _ _ _ [2; 3] _ _ _ |- _ => known_turn H H2 v end.
  match goal with H : loop_run _ _ _ _ [3] _ _ _ |- _ => known_turn H H3 v end.
  split; [reflexivity |].
  eexists. split; [exact Hres |].
  match goal with
  | H : parseResponse _ _ _ _ = inr ?d |- _ =>
      destruct (parseResponse_fulfilled _ _ _ _ _ H)
        as (_ & _ & _ & _ & <- & <- & _); exact H
  end.
Qed.

(** What [makeRequest] returns is the normalisation of the last answer of
    the transport. *)
Lemma makeRequest_returned this method path options w d :
  let out := makeRequest R env this method path options w in
  result out = Normal d ->
  exists r, last (answers (trace out)) = Some (inr r) /\
            parseResponse r method (url d) (responseTime d) = inr d.
Proof.
  intros out Hd. subst out.
  destruct (makeRequest_run R env this method path options w)
    as (res & w' & tr & Hrun & Hres & Hans & _ & _).
  rewrite Hans. rewrite Hres in Hd.
  destruct (run_total R _ _ _ _ _ _ _ _ _ Hrun) as [[d' | e] ->];
    [| discriminate].
  injection Hd as ->.
  destruct (run_returned R _ _ _ _ _ _ _ _ _ d Hrun eq_refl) as (r & Hlast & Hd).
  destruct (run_urls R _ _ _ _ _ _ _ _ _ Hrun) as [_ Hurl].
  exists r. split; [exact Hlast |]. rewrite (Hurl d eq_refl). exact Hd.
Qed.


(** C4.  A returned [ApiResponseData] holds in [rawBody] the text of the
    response as it is, and in [body] what [JSON.parse] makes of that text,
    or the text itself when [JSON.parse] rejects it.  The text [not-json{]
    comes back as that string; the text of the object with the one
    property [a] of value [1] comes back as that object. *)
Theorem json_fallback this method path options w d :
  let out := makeRequest R env this method path options w in
  result out = Normal d ->
  exists r, last (answers (trace out)) = Some (inr r) /\
    resp_text r = inr (rawBody d) /\
    body d = match Json.JSON_parse (rawBody d) with
             | Some parsed => parsed
             | None => JsString (rawBody d)
             end /\
    (resp_text r = inr "not-json{" ->
     body d = JsString "not-json{" /\ rawBody d = "not-json{") /\
    (resp_text r = inr ("{" +:+ quote +:+ "a" +:+ quote +:+ ":1}") ->
     body d = JsObject [("a", JsNumber 1 0)] /\
     rawBody d = "{" +:+ quote +:+ "a" +:+ quote +:+ ":1}").
Proof.
  intros out Hd.
  destruct (makeRequest_returned this method path options w d Hd)
    as (r & Hlast & Heq).
  exists r. split; [exact Hlast |].
  destruct (parseResponse_fulfilled _ _ _ _ _ Heq) as (Hraw & _ & _ & Hbody & _).
  split; [exact Hraw |]. split; [exact Hbody |]. split.
  - intros Ht. rewrite Hraw in Ht. injection Ht as Ht.
    rewrite Hbody, Ht. split; reflexivity.
  - intros Ht. rewrite Hraw in Ht. injection Ht as Ht.
    rewrite Hbody, Ht. split; reflexivity.
Qed.

(** C5, amended.  Every attempt of a request, and the [url] of its
    result, goes to [path] itself when [path] starts with the four
    characters [http], and to [baseUrl] followed by [path] otherwise.  A [get] of [https://other.example/x] on
    a client whose base URL is [https://api.example] is sent to
    [https://other.example/x]. *)
Theorem absolute_url_bypass this method path options w :
  let out := makeRequest R env this method path options w in
  (String.prefix "http" path = true ->
   Forall (eq path) (request_urls (trace out)) /\
   forall d, result out = Normal d -> url d = path) /\
  (String.prefix "http" path = false ->
   Forall (eq (baseUrl this +:+ path)) (request_urls (trace out)) /\
   forall d, result out = Normal d -> url d = baseUrl this +:+ path) /\
  (forall defaults,
      request_urls
        (trace (get R env {| baseUrl := "https://api.example";
                             defaultHeaders := defaults |}
                    "https://other.example/x" no_options w))
      = ["https://other.example/x"]).
Proof.
  intros out. subst out.
  destruct (makeRequest_run R env this method path options w)
    as (res & w' & tr & Hrun & Hres & _ & Hurls & _).
  destruct (run_urls R _ _ _ _ _ _ _ _ _ Hrun) as [Hall Hd].
  rewrite Hurls.
  assert (Hret : forall d, result (makeRequest R env this method path options w)
                           = Normal d -> res = Normal (inl d)).
  { intros d Hn. rewrite Hres in Hn.
    destruct res as [[d' | e] | x]; congruence. }
  split; [| split].
  - intros Hp. rewrite Hp in *. split; [exact Hall |]. intros d Hn. auto.
  - intros Hp. rewrite Hp in *. split; [exact Hall |]. intros d Hn. auto.
  - intros defaults. unfold get.
    destruct (makeRequest_run R env
                {| baseUrl := "https://api.example"; defaultHeaders := defaults |}
                "GET" "https://other.example/x" no_options w)
      as (res1 & w1 & tr1 & Hrun1 & _ & _ & -> & _).
    simpl in Hrun1. change (seqZ 1 1) with [1] in Hrun1.
    inversion Hrun1; subst; try lia;
      try match goal with
          | H : forall v', "GET" <> verb_name v' |- _ =>
              exfalso; exact (H GET eq_refl)
          end;
      try match goal with
          | H : loop_run _ _ _ _ [] _ _ _ |- _ => inversion H; subst
          end;
      reflexivity.
Qed.
End Claims.

(** ** The claims at concrete requests *)

(** A [get] that the transport answers with status 404. *)
Lemma http_status_is_returned_witness :
  let out := get (scripted [inr not_found]) default_env example_client
                 "/users/23" (with_retries 3) (0%nat, 0) in
  answers (trace out) !! 0%nat = Some (inr not_found) /\
  resp_text not_found = inr "{}" /\
  length (answers (trace out)) = 1%nat /\
  exists d, result out = Normal d /\ status d = 404 /\ rawBody d = "{}" /\
            parseResponse not_found "GET" (url d) (responseTime d) = inr d.
Proof.
  intros out.
  assert (H : answers (trace out) !! 0%nat = Some (inr not_found))
    by (vm_compute; reflexivity).
  split; [exact H |]. split; [reflexivity |].
  exact (http_status_is_returned (scripted [inr not_found]) default_env
           example_client "GET" "/users/23" (with_retries 3) (0%nat, 0)
           0%nat not_found "{}" H eq_refl).
Defined.

(** C1 as stated fails: the transport answers both attempts of a [get]
    with [retries: 2] by a response of status 404 whose body cannot be
    read; the client sleeps, tries again, and throws. *)
Lemma unreadable_response_is_retried :
  let out := get (scripted [inr unreadable; inr unreadable]) default_env
                 example_client "/users/23" (with_retries 2) (0%nat, 0) in
  answers (trace out) = [inr unreadable; inr unreadable] /\
  resp_status unreadable = 404 /\
  sleeps (trace out) = [1000] /\
  result out = Throw (Some disposed) /\
  ~ (forall (i : nat) r,
        answers (trace out) !! i = Some (inr r) ->
        length (answers (trace out)) = S i /\
        exists d, result out = Normal d /\ status d = resp_status r).
Proof.
  intros out.
  assert (Hans : answers (trace out) = [inr unreadable; inr unreadable])
    by (vm_compute; reflexivity).
  assert (Hres : result out = Throw (Some disposed))
    by (vm_compute; reflexivity).
  split; [exact Hans |]. split; [reflexivity |].
  split; [vm_compute; reflexivity |]. split; [exact Hres |].
  intros Hclaim.
  destruct (Hclaim 0%nat unreadable) as [_ (d & Hd & _)].
  - rewrite Hans. reflexivity.
  - rewrite Hres in Hd. discriminate.
Qed.

(** A [get] with [retries: 2] on a transport that throws each time. *)
Lemma retry_exhaustion_propagates_witness :
  let out := get (scripted [inl (reset 1); inl (reset 2); inl (reset 3)])
                 default_env example_client "/users" (with_retries 2)
                 (0%nat, 0) in
  length (answers (trace out)) = 2%nat /\
  result out = Throw (Some (reset 2)).
Proof.
  intros out.
  destruct (retry_exhaustion_propagates
              (scripted [inl (reset 1); inl (reset 2); inl (reset 3)])
              default_env example_client GET "/users" (with_retries 2) 2
              (0%nat, 0) eq_refl)
    as (Hthrows & Hexhaust).
  - lia.
  - destruct Hexhaust as (Hlen & e & Hlast & Hres).
    + apply Hthrows. intros v' u ro [[| [| [| k]]] t]; exact I.
    + split; [exact Hlen |].
      vm_compute in Hlast. injection Hlast as <-. exact Hres.
Defined.

(** A [get] with [retries: 0]. *)
Lemma zero_retries_throws_null_witness :
  let out := get (scripted [inr not_found]) default_env example_client
                 "/users" (with_retries 0) (0%nat, 0) in
  result out = Throw None /\ answers (trace out) = [].
Proof.
  intros out.
  destruct (zero_retries_throws_null (scripted [inr not_found]) default_env
              example_client "GET" "/users" (with_retries 0) (0%nat, 0) eq_refl)
    as (_ & Hres & Hans & _).
  split; [exact Hres | exact Hans].
Defined.

(** A [get] with [retries: 3] on a transport that throws twice. *)
Lemma linear_backoff_witness :
  let out := get (scripted [inl (reset 1); inl (reset 2); inr not_found])
                 default_env example_client "/users" (with_retries 3)
                 (0%nat, 0) in
  sleeps (trace out) = [1000; 2000] /\
  timeline (trace out)
  = [Attempt (inl (reset 1)); Wait 1000; Attempt (inl (reset 2)); Wait 2000;
     Attempt (inr not_found)] /\
  exists d, result out = Normal d /\
            parseResponse not_found "GET" (url d) (responseTime d) = inr d.
Proof.
  intros out.
  destruct (linear_backoff
              (scripted [inl (reset 1); inl (reset 2); inr not_found])
              default_env example_client GET "/users" (with_retries 3)
              (0%nat, 0))
    as (_ & _ & Hsleeps & _ & Hex).
  split; [exact Hsleeps |].
  apply (Hex (reset 1) (reset 2) not_found "{}" (1%nat, 5) (2%nat, 1010)
             (3%nat, 3015) eq_refl);
    try (intros u ro; reflexivity).
  reflexivity.
Defined.


(** A response whose text is not JSON, and one whose text is a JSON
    object. *)
Lemma json_fallback_witness :
  (let out := get (scripted [inr plain_text]) default_env example_client
                  "/notes/1" no_options (0%nat, 0) in
   exists d, result out = Normal d /\
             body d = JsString "not-json{" /\ rawBody d = "not-json{") /\
  (let out := get (scripted [inr json_object]) default_env example_client
                  "/notes/2" no_options (0%nat, 0) in
   exists d, result out = Normal d /\
             body d = JsObject [("a", JsNumber 1 0)]).
Proof.
  split; intros out.
  - destruct (result out) as [d | x] eqn:Hd;
      [| vm_compute in Hd; discriminate].
    destruct (json_fallback (scripted [inr plain_text]) default_env
                example_client "GET" "/notes/1" no_options (0%nat, 0) d Hd)
      as (r & Hlast & _ & _ & Hplain & _).
    assert (Hr : r = plain_text).
    { vm_compute in Hlast. injection Hlast as <-. reflexivity. }
    exists d. split; [reflexivity |]. apply Hplain. rewrite Hr. reflexivity.
  - destruct (result out) as [d | x] eqn:Hd;
      [| vm_compute in Hd; discriminate].
    destruct (json_fallback (scripted [inr json_object]) default_env
                example_client "GET" "/notes/2" no_options (0%nat, 0) d Hd)
      as (r & Hlast & _ & _ & _ & Hjson).
    assert (Hr : r = json_object).
    { vm_compute in Hlast. injection Hlast as <-. reflexivity. }
    exists d. split; [reflexivity |]. apply Hjson. rewrite Hr. reflexivity.
Defined.

(** A [get] of an absolute URL, and a [get] of a path. *)
Lemma absolute_url_bypass_witness :
  (let out := get (scripted [inr not_found]) default_env example_client
                  "https://other.example/x" no_options (0%nat, 0) in
   String.prefix "http" "https://other.example/x" = true /\
   Forall (eq "https://other.example/x") (request_urls (trace out)) /\
   request_urls (trace out) = ["https://other.example/x"]) /\
  (let out := get (scripted [inr not_found]) default_env example_client
                  "/users/23" no_options (0%nat, 0) in
   String.prefix "http" "/users/23" = false /\
   Forall (eq "https://api.example/users/23") (request_urls (trace out)) /\
   request_urls (trace out) = ["https://api.example/users/23"]).
Proof.
  split; intros out.
  - destruct (absolute_url_bypass (scripted [inr not_found]) default_env
                example_client "GET" "https://other.example/x" no_options
                (0%nat, 0)) as (Habs & _ & Hex).
    split; [reflexivity |]. split.
    + apply (Habs eq_refl).
    + apply (Hex (defaultHeaders example_client)).
  - destruct (absolute_url_bypass (scripted [inr not_found]) default_env
                example_client "GET" "/users/23" no_options
                (0%nat, 0)) as (_ & Hrel & _).
    split; [reflexivity |]. split.
    + apply (Hrel eq_refl).
    + vm_compute. reflexivity.
Defined.

(** C5 as stated fails, both ways.  [ftp://files.example/x] and
    [HTTPS://other.example/x] begin with a URL scheme, and are appended
    to the base URL; [httpfoo/list] begins with none, and is requested as
    it is. *)
Lemma url_scheme_is_not_the_test :
  let sent path :=
    request_urls
      (trace (get (scripted [inr not_found]) default_env example_client
                  path no_options (0%nat, 0))) in
  (has_url_scheme "ftp://files.example/x" = true /\
   sent "ftp://files.example/x" = ["https://api.exampleftp://files.example/x"])
  /\ (has_url_scheme "HTTPS://other.example/x" = true /\
      sent "HTTPS://other.example/x"
      = ["https://api.exampleHTTPS://other.example/x"])
  /\ (has_url_scheme "httpfoo/list" = false /\
      sent "httpfoo/list" = ["httpfoo/list"]).
Proof.
  intros sent. repeat split; vm_compute; reflexivity.
Qed.
End ApiClientFacts.

(** * Properties of the self-healing locator *)
Module AutoHealFacts.
Import AutoHeal.

Ltac heal_unfold :=
  unfold mbind, mret, Eff_mbind, Eff_mret, eff_bind, eff_ret, try_catch,
    throw, emit, log, waitFor in *;
  cbv beta in *.

Section Healing.
Context {W : Type} (R : Runtime W).
Variables (context : ElementContext) (config : AutoHealConfig).

Lemma waits_app t1 t2 : waits (t1 ++ t2) = waits t1 ++ waits t2.
Proof. apply omap_app. Qed.

(** Trying one strategy is one wait on the first match of its locator. *)
Lemma try_strategy_run strategy w :
  let l := first (locate strategy context) in
  exists t1,
    match rt_waitFor R l 2000 w with
    | (None, w1) =>
        try_strategy R strategy context config w = (Normal (Some l), w1, t1) /\
        waits t1 = [(l, 2000, true)]
    | (Some e, w1) =>
        try_strategy R strategy context config w = (Normal None, w1, t1) /\
        waits t1 = [(l, 2000, false)]
    end.
Proof.
  intros l. subst l. unfold try_strategy. heal_unfold. simpl.
  destruct (rt_waitFor R (first (locate strategy context)) 2000 w)
    as [[e |] w1]; simpl.
  - eexists. split; reflexivity.
  - destruct (logWarnings config); simpl; eexists; split; reflexivity.
Qed.

(** The loop tries the strategies in the order of the list, once each, and
    stops at the first whose wait succeeds. *)
Lemma heal_loop_run strategies w :
  let out := heal_loop R strategies context config w in
  (exists losers winner rest,
      strategies = losers ++ winner :: rest /\
      waits (trace out)
      = (strategy_wait context false <$> losers)
          ++ [strategy_wait context true winner] /\
      result out = Normal (Some (first (locate winner context))))
  \/ (waits (trace out) = strategy_wait context false <$> strategies /\
      result out = Normal None).
Proof.
  revert w. induction strategies as [| strategy rest IH]; intros w out; subst out.
  - right. split; reflexivity.
  - cbn [heal_loop]. unfold mbind, Eff_mbind, eff_bind.
    destruct (try_strategy_run strategy w) as [t1 Htry]. cbv zeta in Htry.
    destruct (rt_waitFor R (first (locate strategy context)) 2000 w)
      as [[e |] w1]; destruct Htry as [-> Hw].
    + specialize (IH w1). cbv zeta in IH.
      destruct (heal_loop R rest context config w1) as [[res2 w2] t2].
      unfold result, trace in *. cbn [fst snd] in *.
      rewrite waits_app, Hw.
      destruct IH as [(losers & winner & rest' & -> & Hw2 & Hres) | (Hw2 & Hres)].
      * left. exists (strategy :: losers), winner, rest'.
        rewrite Hw2. split; [reflexivity |]. split; [reflexivity | exact Hres].
      * right. rewrite Hw2. split; [reflexivity | exact Hres].
    + left. exists [], strategy, rest.
      unfold result, trace, mret, Eff_mret, eff_ret. cbn [fst snd].
      rewrite waits_app, Hw. repeat split; reflexivity.
Qed.

End Healing.

(** On a page that does not change, the loop returns the first strategy
    of the list whose locator is visible. *)
Lemma heal_loop_fixed (vis : Locator -> bool) context config strategies :
  result (heal_loop (fixed_page vis) strategies context config tt)
  = Normal (option_map (fun s => first (locate s context))
              (List.find (fun s => vis (first (locate s context))) strategies)).
Proof.
  induction strategies as [| strategy rest IH].
  - reflexivity.
  - cbn [heal_loop List.find]. unfold mbind, Eff_mbind, eff_bind.
    destruct (try_strategy_run (fixed_page vis) context config strategy tt)
      as [t1 Htry].
    cbv zeta in Htry. simpl rt_waitFor in Htry.
    destruct (vis (first (locate strategy context)));
      destruct Htry as [-> _].
    + reflexivity.
    + unfold result in *.
      destruct (heal_loop (fixed_page vis) rest context config tt)
        as [[res2 w2] t2].
      exact IH.
Qed.

(** ** The claims about the locator *)

(** After a failed primary wait with healing enabled, [autoHealLocator]
    is the strategy loop. *)
Lemma autoHealLocator_heals {W} (R : Runtime W) primary context config w e w1 :
  enabled config = true ->
  rt_waitFor R primary (timeout config) w = (Some e, w1) ->
  let out := autoHealLocator R primary context config w in
  let loop := heal_loop R HEALING_STRATEGIES context config w1 in
  waits (trace out) = (primary, timeout config, false) :: waits (trace loop) /\
  result out = match result loop with
               | Normal (Some found) => Normal found
               | Normal None => Throw (exhausted context)
               | Throw x => Throw x
               end.
Proof.
  intros Hen Hprimary out loop. subst out loop.
  unfold autoHealLocator.
  generalize (heal_loop R HEALING_STRATEGIES context config). intros hl.
  heal_unfold. rewrite Hprimary, Hen. simpl.
  destruct (logWarnings config); simpl;
  destruct (hl w1) as [[[[found |] | x] w2] t2];
    unfold result, trace; cbn [fst snd];
    simpl; rewrite ?waits_app; simpl; rewrite ?app_nil_r; split; reflexivity.
Qed.

(** C6.  With [enabled: false], when the wait on the primary locator
    fails, [autoHealLocator] throws the error that names
    [context.originalSelector]; the wait on the primary locator is all it
    has done: no strategy was evaluated. *)
Theorem disabled_healing_fails_fast {W} (R : Runtime W)
        primary context config w e w1 :
  enabled config = false ->
  rt_waitFor R primary (timeout config) w = (Some e, w1) ->
  autoHealLocator R primary context config w
  = (Throw {| message := "Element not found: " +:+ quote
                         +:+ originalSelector context +:+ quote
                         +:+ ". Auto-heal is disabled." |},
     w1,
     [WaitFor primary (timeout config) false]).
Proof.
  intros Hen Hprimary. unfold autoHealLocator. heal_unfold.
  rewrite Hprimary, Hen. reflexivity.
Qed.

(** C7.  The strategies are, in this order, role, exact text, placeholder,
    test id, partial text.  When healing runs they are tried in that
    order, once each, up to the first whose locator becomes visible; that
    locator is returned and the strategies after it are not tried.  On a
    page that does not change, the result is the first strategy of the
    list whose locator is visible, whatever later strategies would find. *)
Theorem strategy_order_is_fixed :
  name <$> HEALING_STRATEGIES
  = ["By Role"; "By Text (exact)"; "By Placeholder"; "By Test ID";
     "By Text (partial)"] /\
  NoDup (name <$> HEALING_STRATEGIES) /\
  (forall r t p i selector,
      r <> EmptyString -> t <> EmptyString ->
      p <> EmptyString -> i <> EmptyString ->
      (fun s => locate s {| originalSelector := selector; role := Some r;
                            text := Some t; placeholder := Some p;
                            testId := Some i |}) <$> HEALING_STRATEGIES
      = [getByRole r (Some t); getByText t true; getByPlaceholder p;
         getByTestId i; getByText t false]) /\
  (forall W (R : Runtime W) primary context config w e w1,
      enabled config = true ->
      rt_waitFor R primary (timeout config) w = (Some e, w1) ->
      let out := autoHealLocator R primary context config w in
      (exists losers winner rest,
          HEALING_STRATEGIES = losers ++ winner :: rest /\
          waits (trace out)
          = (primary, timeout config, false)
              :: (strategy_wait context false <$> losers)
              ++ [strategy_wait context true winner] /\
          result out = Normal (first (locate winner context)))
      \/ (waits (trace out)
          = (primary, timeout config, false)
              :: (strategy_wait context false <$> HEALING_STRATEGIES) /\
          result out = Throw (exhausted context))) /\
  (forall vis primary context config,
      enabled config = true ->
      vis primary = false ->
      result (autoHealLocator (fixed_page vis) primary context config tt)
      = match List.find (fun s => vis (first (locate s context)))
                        HEALING_STRATEGIES with
        | Some s => Normal (first (locate s context))
        | None => Throw (exhausted context)
        end).
Proof.
  split; [reflexivity |].
  split; [apply (bool_decide_unpack _); vm_compute; reflexivity |].
  split; [| split].
  - intros r t p i selector Hr Ht Hp Hi.
    assert (Hne : forall s, s <> EmptyString -> nonempty (Some s) = Some s).
    { intros s Hs. unfold nonempty.
      destruct (String.eqb_spec s EmptyString); congruence. }
    unfold HEALING_STRATEGIES. cbn -[nonempty].
    rewrite (Hne r Hr), (Hne t Ht), (Hne p Hp), (Hne i Hi). reflexivity.
  - intros W R primary context config w e w1 Hen Hprimary out. subst out.
    destruct (autoHealLocator_heals R primary context config w e w1 Hen Hprimary)
      as [-> ->].
    destruct (heal_loop_run R context config HEALING_STRATEGIES w1)
      as [(losers & winner & rest & Hsplit & -> & ->) | (-> & ->)].
    + left. exists losers, winner, rest. auto.
    + right. auto.
  - intros vis primary context config Hen Hprimary.
    destruct (autoHealLocator_heals (fixed_page vis) primary context config tt
                {| message := "locator.waitFor: Timeout "
                              +:+ pretty (timeout config) +:+ "ms exceeded." |}
                tt Hen) as [_ ->].
    { simpl. rewrite Hprimary. reflexivity. }
    rewrite heal_loop_fixed.
    destruct (List.find _ HEALING_STRATEGIES); reflexivity.
Qed.

(** C8, amended.  A strategy whose required field is absent (or empty)
    derives the query [page.locator('__nonexistent__')], whatever else the
    context holds.  That query is a type selector: it selects the elements
    of tag name [__nonexistent__], and so no element of a page that has no
    element of that name. *)
Theorem absent_field_gives_sentinel_query :
  Forall2 (fun strategy field =>
             forall context,
               nonempty (field context) = None ->
               locate strategy context = locator "__nonexistent__")
          HEALING_STRATEGIES required_fields /\
  (forall page,
      select page (locator "__nonexistent__")
      = List.filter
          (fun e => String.eqb (lower_case (tagName e)) "__nonexistent__")
          page) /\
  (forall page,
      Forall (fun e => lower_case (tagName e) <> "__nonexistent__") page ->
      select page (locator "__nonexistent__") = []).
Proof.
  assert (Hsel : forall page,
             select page (locator "__nonexistent__")
             = List.filter
                 (fun e => String.eqb (lower_case (tagName e)) "__nonexistent__")
                 page) by reflexivity.
  split; [| split].
  - unfold HEALING_STRATEGIES, required_fields.
    repeat constructor; intros context Hnone; cbn [locate];
      rewrite Hnone; reflexivity.
  - exact Hsel.
  - intros page Hall. rewrite Hsel.
    induction Hall as [| e page He _ IH]; [reflexivity |].
    simpl. destruct (String.eqb_spec (lower_case (tagName e)) "__nonexistent__");
      [contradiction | exact IH].
Qed.

(** ** The claims on concrete pages *)

(** Healing is off and the page has no [#old-login]. *)
Lemma disabled_healing_fails_fast_witness :
  autoHealLocator (static_page [login_link; login_button])
                  (locator "#old-login") (button_context "#old-login")
                  {| enabled := false; timeout := 5000; logWarnings := true |}
                  tt
  = (Throw {| message := "Element not found: " +:+ quote +:+ "#old-login"
                         +:+ quote +:+ ". Auto-heal is disabled." |},
     tt,
     [WaitFor (locator "#old-login") 5000 false]).
Proof.
  exact (disabled_healing_fails_fast
           (static_page [login_link; login_button]) (locator "#old-login")
           (button_context "#old-login")
           {| enabled := false; timeout := 5000; logWarnings := true |}
           tt
           {| message := "locator.waitFor: Timeout 5000ms exceeded." |}
           tt eq_refl eq_refl).
Defined.

(** The button is found by role, although the partial text [Login] would
    find the link before it. *)
Lemma strategy_order_is_fixed_witness :
  let page := [login_link; login_button] in
  let context := button_context "#old-login" in
  visible_on page (first (getByText "Login" false)) = true /\
  select page (first (getByText "Login" false)) = [login_link] /\
  result (autoHealLocator (static_page page) (locator "#old-login") context
                          DEFAULT_CONFIG tt)
  = Normal (first (getByRole "button" (Some "Login"))).
Proof.
  intros page context.
  split; [vm_compute; reflexivity |]. split; [vm_compute; reflexivity |].
  destruct strategy_order_is_fixed as (_ & _ & _ & _ & Hfixed).
  unfold static_page.
  rewrite (Hfixed (visible_on page) (locator "#old-login") context
                  DEFAULT_CONFIG eq_refl);
    vm_compute; reflexivity.
Defined.

(** A page without an element named [__nonexistent__]. *)
Lemma absent_field_gives_sentinel_query_witness :
  select [login_link; login_button]
         (locate {| name := "By Role";
                    locate := fun ctx =>
                      match nonempty (role ctx) with
                      | None => locator "__nonexistent__"
                      | Some r => getByRole r (nonempty (text ctx))
                      end |}
                 (bare_context "#old-login"))
  = [].
Proof.
  destruct absent_field_gives_sentinel_query as (_ & _ & Hnone).
  apply (Hnone [login_link; login_button]).
  repeat constructor; vm_compute; discriminate.
Defined.

(** C8 as stated fails: the context has no [role], and the page has an
    element whose tag name is [__nonexistent__]; the query of the role
    strategy selects that element, and [autoHealLocator] returns it as the
    healed locator. *)
Lemma absent_field_query_matches :
  let page := [login_button; stray_element] in
  let context := bare_context "#old-login" in
  exists strategy field,
    (strategy, field) ∈ zip HEALING_STRATEGIES required_fields /\
    field context = None /\
    select page (locate strategy context) = [stray_element] /\
    result (autoHealLocator (static_page page) (locator "#old-login") context
                            DEFAULT_CONFIG tt)
    = Normal (first (locate strategy context)).
Proof.
  intros page context.
  eexists _, role. split; [left |]. split; [reflexivity |].
  split; vm_compute; reflexivity.
Qed.
End AutoHealFacts.

(** * More properties of the HTTP client *)
Module ApiClientMore.
Import ApiClient ApiClientFacts.

Section Events.
Context {W : Type} (R : Runtime W).

(** [executeRequest] hands the transport the options it built, or throws
    without calling it. *)
Lemma executeRequest_dispatch method url headers options timeout :
  executeRequest R method url headers options timeout
  = match verb_of method with
    | Some v => send R v url (requestOptions method headers options timeout)
    | None => throw (Some (unsupported method))
    end.
Proof.
  unfold executeRequest, verb_of.
  fold (requestOptions method headers options timeout).
  repeat match goal with
         | |- context [String.eqb method ?s] => destruct (String.eqb method s)
         end; reflexivity.
Qed.

Lemma verb_of_name v : verb_of (verb_name v) = Some v.
Proof. destruct v; reflexivity. Qed.

Lemma verb_of_Some method v : verb_of method = Some v -> method = verb_name v.
Proof.
  unfold verb_of.
  repeat match goal with
         | |- context [String.eqb method ?s] =>
             destruct (String.eqb_spec method s)
         end; intros [= <-]; assumption || discriminate.
Qed.

Lemma verb_of_None method :
  verb_of method = None <-> forall v, method <> verb_name v.
Proof.
  split.
  - intros Hnone v ->. rewrite verb_of_name in Hnone. discriminate.
  - intros Hne. destruct (verb_of method) as [v |] eqn:Hv; [| reflexivity].
    apply verb_of_Some in Hv. destruct (Hne v Hv).
Qed.

(** A property of events that holds of every event of every turn holds of
    every event of the loop. *)
Lemma attempt_loop_events (Q : Event -> Prop)
      method url headers options timeout maxRetries :
  (forall attempt w,
      Forall Q (trace (attempt_body R method url headers options timeout
                                    maxRetries attempt w))) ->
  forall attempts lastError w,
    Forall Q (trace (attempt_loop R method url headers options timeout
                                  maxRetries attempts lastError w)).
Proof.
  intros Hbody attempts.
  induction attempts as [| attempt rest IH]; intros lastError w.
  - constructor.
  - rewrite attempt_loop_cons. specialize (Hbody attempt w).
    destruct (attempt_body R method url headers options timeout maxRetries
                           attempt w) as [[[[d | e] | x] w1] t1];
      unfold trace in *; cbn [snd] in *.
    + rewrite app_nil_r. exact Hbody.
    + specialize (IH e w1).
      destruct (attempt_loop R method url headers options timeout maxRetries
                             rest e w1) as [[r w2] t2].
      cbn [snd] in *. apply Forall_app. split; assumption.
    + exact Hbody.
Qed.

(** The events of one turn: those of [executeRequest], then metric, log
    and sleep events. *)
Lemma attempt_body_events (Q : Event -> Prop)
      method url headers options timeout maxRetries attempt w :
  (forall ev, quiet ev -> Q ev) ->
  Forall Q (trace (executeRequest R method url headers options timeout w)) ->
  Forall Q (trace (attempt_body R method url headers options timeout
                                maxRetries attempt w)).
Proof.
  intros Hquiet Hexec.
  pose proof (attempt_body_run R method url headers options timeout
                               maxRetries attempt w) as Hrun.
  cbv zeta in Hrun.
  destruct (executeRequest R method url headers options timeout w)
    as [[[r | x] w1] t1]; unfold trace in *; cbn [snd] in *.
  - destruct (parseResponse r method url (rt_now R w1 - rt_now R w)).
    + destruct (attempt <? maxRetries).
      * destruct Hrun as [msg ->]. cbn [snd]. apply Forall_app.
        split; [exact Hexec |]. repeat constructor; apply Hquiet; exact I.
      * rewrite Hrun. exact Hexec.
    + destruct Hrun as [msg ->]. cbn [snd]. apply Forall_app.
      split; [exact Hexec |]. repeat constructor; apply Hquiet; exact I.
  - destruct (attempt <? maxRetries).
    + destruct Hrun as [msg ->]. cbn [snd]. apply Forall_app.
      split; [exact Hexec |]. repeat constructor; apply Hquiet; exact I.
    + rewrite Hrun. exact Hexec.
Qed.

(** What [makeRequest] sends: every call of the transport is the verb of
    [method], goes to the resolved URL, and carries the request options
    built from the merged headers and the effective timeout. *)
Lemma makeRequest_requests env this method path options w :
  let url :=
    if String.prefix "http" path then path else baseUrl this +:+ path in
  let ro :=
    requestOptions method
      (spread (defaultHeaders this) (opt_headers options)) options
      (or_default (opt_timeout options) (API_TIMEOUT env)) in
  Forall (fun q => verb_of method = Some q.1.1 /\ q.1.2 = url /\ q.2 = ro)
         (requests (trace (makeRequest R env this method path options w))).
Proof.
  intros url ro.
  set (Q := fun ev =>
              match ev with
              | Request v u o _ =>
                  verb_of method = Some v /\ u = url /\ o = ro
              | _ => True
              end).
  assert (Hall : Forall Q (trace (makeRequest R env this method path options w))).
  { unfold makeRequest. fold url.
    set (hs := spread _ _). set (to := or_default _ _).
    assert (Hloop : forall attempts lastError w0,
               Forall Q (trace (attempt_loop R method url hs options to
                                  (nullish (opt_retries options) 1)
                                  attempts lastError w0))).
    { apply attempt_loop_events. intros attempt w0.
      apply attempt_body_events; [intros [] Hq; try exact I; destruct Hq |].
      rewrite executeRequest_dispatch.
      destruct (verb_of method) as [v |] eqn:Hv.
      - unfold send, trace.
        destruct (rt_request R v url (requestOptions method hs options to) w0)
          as [[e | r] w1]; cbn [snd]; repeat constructor; auto.
      - constructor. }
    specialize (Hloop (seqZ 1 (nullish (opt_retries options) 1)) None).
    eff_unfold. simpl.
    destruct (truthy_opt (opt_body options)); simpl;
      match goal with
      | |- context [attempt_loop R method url hs options to ?n ?l None w] =>
          specialize (Hloop w);
          destruct (attempt_loop R method url hs options to n l None w)
            as [[[[d | e] | x] w'] tr]
      end;
      unfold trace in *; cbn [snd] in *;
      rewrite ?app_nil_r;
      repeat (rewrite Forall_cons || rewrite Forall_app);
      rewrite ?Forall_nil; cbn [Q]; tauto. }
  unfold requests.
  induction Hall as [| ev tr Hev _ IH]; [constructor |].
  destruct ev; cbn [omap list_omap]; try exact IH.
  constructor; [exact Hev | exact IH].
Qed.

(** X1.  A request carries a body only when the verb is POST, PUT or
    PATCH and [options.body] is truthy; then the body is [options.body]. *)
Theorem body_sent_only_with_post_put_patch env this v path options w :
  Forall (fun q =>
            q.1.1 = v /\
            rq_data q.2
            = if carries_body v && truthy_opt (opt_body options)
              then opt_body options else None)
         (requests (trace (makeRequest R env this (verb_name v) path options w))).
Proof.
  eapply Forall_impl; [apply makeRequest_requests |].
  intros [[v' u] ro] (Hv & _ & ->). cbn [fst snd] in *.
  rewrite verb_of_name in Hv. injection Hv as <-. split; [reflexivity |].
  destruct v; cbn; destruct (truthy_opt (opt_body options)); reflexivity.
Qed.

(** X2.  The headers of every request are the default headers of the
    client overridden, key by key, by the headers of the call. *)
Theorem call_headers_override_defaults env this method path options w :
  Forall (fun q =>
            forall key,
              rq_headers q.2 !! key
              = match opt_headers options ≫= (fun hs => hs !! key) with
                | Some value => Some value
                | None => defaultHeaders this !! key
                end)
         (requests (trace (makeRequest R env this method path options w))).
Proof.
  eapply Forall_impl; [apply makeRequest_requests |].
  intros [[v' u] ro] (_ & _ & ->) key. cbn [snd requestOptions rq_headers].
  unfold spread. destruct (opt_headers options) as [hs |]; cbn.
  - rewrite lookup_union. destruct (hs !! key), (defaultHeaders this !! key);
      reflexivity.
  - reflexivity.
Qed.

(** X3.  Every request carries [options.params] as it is, and as timeout
    [options.timeout] when that is given and not [0], and
    [ENV_CONFIG.API_TIMEOUT] otherwise: a timeout of [0] cannot be asked
    for. *)
Theorem zero_timeout_falls_back env this method path options w :
  Forall (fun q =>
            rq_params q.2 = opt_params options /\
            (forall t, opt_timeout options = Some t -> t <> 0 ->
                       rq_timeout q.2 = t) /\
            (opt_timeout options = None \/ opt_timeout options = Some 0 ->
             rq_timeout q.2 = API_TIMEOUT env))
         (requests (trace (makeRequest R env this method path options w))).
Proof.
  eapply Forall_impl; [apply makeRequest_requests |].
  intros [[v' u] ro] (_ & _ & ->). cbn [snd requestOptions rq_params rq_timeout].
  split; [reflexivity |]. unfold or_default. split.
  - intros t -> Ht. destruct (Z.eqb_spec t 0); [contradiction | reflexivity].
  - intros [-> | ->]; reflexivity.
Qed.
End Events.

(** ** The whole outcome of [makeRequest] *)

Section Outcome.
Context {W : Type} (R : Runtime W) (env : EnvironmentConfig).

(** [makeRequest] is its loop between log lines. *)
Lemma makeRequest_unfold this method path options w :
  let url :=
    if String.prefix "http" path then path else baseUrl this +:+ path in
  let n := nullish (opt_retries options) 1 in
  let out := makeRequest R env this method path options w in
  exists res w' tr pre post,
    loop_run R method url n (seqZ 1 n) None w (res, w', tr) /\
    out = (match res with
           | Normal (inl d) => Normal d
           | Normal (inr e) => Throw e
           | Throw x => Throw x
           end, w', pre ++ tr ++ post) /\
    Forall logline pre /\ Forall logline post.
Proof.
  intros url n out. subst out. unfold makeRequest. fold url. fold n.
  set (hs := spread _ _). set (to := or_default _ _).
  pose proof (attempt_loop_run R method url hs options to n (seqZ 1 n) None w)
    as Hrun.
  eff_unfold. simpl.
  set (pre := Log INFO ("→ " +:+ method +:+ " " +:+ url) None
              :: if truthy_opt (opt_body options)
                 then [Log DEBUG "Request body:" (opt_body options)] else []).
  set (post := fun res : completion Thrown (ApiResponseData + Thrown) =>
                 match res with
                 | Normal (inr _) =>
                     [Log ERROR ("Request FAILED after " +:+ pretty n
                                 +:+ " attempts: " +:+ method +:+ " " +:+ url)
                                None]
                 | _ => []
                 end).
  assert (Hpre : Forall logline pre).
  { subst pre. destruct (truthy_opt (opt_body options)); repeat constructor. }
  assert (Hpost : forall res, Forall logline (post res)).
  { intros [[d | e] | x]; repeat constructor. }
  subst pre.
  destruct (truthy_opt (opt_body options)); simpl;
    destruct (attempt_loop R method url hs options to n (seqZ 1 n) None w)
      as [[res w'] tr];
    eexists res, w', tr, _, (post res);
    (split; [exact Hrun |]);
    (split; [| split; [exact Hpre | apply Hpost]]);
    destruct res as [[d | e] | x]; simpl; rewrite ?app_nil_r; reflexivity.
Qed.

Lemma answers_logline tr : Forall logline tr -> answers tr = [].
Proof.
  induction 1 as [| [] tr Hev _ IH]; try destruct Hev; [reflexivity | exact IH].
Qed.

Lemma metrics_logline tr : Forall logline tr -> metrics tr = [].
Proof.
  induction 1 as [| [] tr Hev _ IH]; try destruct Hev; [reflexivity | exact IH].
Qed.

Lemma sleeps_logline tr : Forall logline tr -> sleeps tr = [].
Proof.
  induction 1 as [| [] tr Hev _ IH]; try destruct Hev; [reflexivity | exact IH].
Qed.

Lemma requests_logline tr : Forall logline tr -> requests tr = [].
Proof.
  induction 1 as [| [] tr Hev _ IH]; try destruct Hev; [reflexivity | exact IH].
Qed.

(** [makeRequest] and its loop make the same calls, sleep the same
    delays and record the same metrics. *)
Lemma makeRequest_observed this method path options w :
  let url :=
    if String.prefix "http" path then path else baseUrl this +:+ path in
  let n := nullish (opt_retries options) 1 in
  let out := makeRequest R env this method path options w in
  exists res w' tr,
    loop_run R method url n (seqZ 1 n) None w (res, w', tr) /\
    result out = match res with
                 | Normal (inl d) => Normal d
                 | Normal (inr e) => Throw e
                 | Throw x => Throw x
                 end /\
    answers (trace out) = answers tr /\
    sleeps (trace out) = sleeps tr /\
    metrics (trace out) = metrics tr /\
    requests (trace out) = requests tr.
Proof.
  intros url n out.
  destruct (makeRequest_unfold this method path options w)
    as (res & w' & tr & pre & post & Hrun & Hout & Hpre & Hpost).
  exists res, w', tr. split; [exact Hrun |]. subst out. fold url n in Hout.
  rewrite Hout. unfold result, trace, answers, sleeps, metrics, requests.
  cbn [fst snd]. rewrite !omap_app.
  fold (answers pre) (answers tr) (answers post)
       (sleeps pre) (sleeps tr) (sleeps post)
       (metrics pre) (metrics tr) (metrics post)
       (requests pre) (requests tr) (requests post).
  rewrite (answers_logline _ Hpre), (answers_logline _ Hpost),
    (sleeps_logline _ Hpre), (sleeps_logline _ Hpost),
    (metrics_logline _ Hpre), (metrics_logline _ Hpost),
    (requests_logline _ Hpre), (requests_logline _ Hpost).
  rewrite !app_nil_r. auto.
Qed.

(** *** Runs, once more *)

Lemma run_attempts_bound method url maxRetries attempts lastError w res w' tr :
  loop_run R method url maxRetries attempts lastError w (res, w', tr) ->
  (length (answers tr) <= length attempts)%nat.
Proof.
  intros H. remember (res, w', tr) as out eqn:Hout. revert res w' tr Hout.
  induction H; intros res' w' tr' [= <- <- <-]; simpl;
    try specialize (IHloop_run _ _ _ eq_refl); lia.
Qed.

(** The metric of a run is the response time of its result, the time the
    clock advanced over the call that was answered. *)
Lemma run_metrics method url maxRetries attempts lastError w res w' tr :
  loop_run R method url maxRetries attempts lastError w (res, w', tr) ->
  match res with
  | Normal (inl d) =>
      metrics tr = [responseTime d] /\
      exists v ro w0 w1 r,
        rt_request R v url ro w0 = (inr r, w1) /\
        responseTime d = rt_now R w1 - rt_now R w0
  | _ => metrics tr = []
  end.
Proof.
  intros H. remember (res, w', tr) as out eqn:Hout. revert res w' tr Hout.
  induction H; intros res' w' tr' [= <- <- <-]; simpl;
    try exact (IHloop_run _ _ _ eq_refl).
  - reflexivity.
  - destruct (parseResponse_fulfilled _ _ _ _ _ H1)
      as (_ & _ & _ & _ & <- & _).
    split; [reflexivity |]. eauto 10.
Qed.

(** A method that [executeRequest] does not dispatch: no call is made,
    every turn but the last one sleeps, and the loop ends with the error
    of [executeRequest]. *)
Lemma run_unsupported method url maxRetries attempts lastError w res w' tr :
  (forall v, method <> verb_name v) ->
  loop_run R method url maxRetries attempts lastError w (res, w', tr) ->
  requests tr = [] /\
  answers tr = [] /\
  res = Normal (inr (match attempts with
                     | [] => lastError
                     | _ :: _ => Some (unsupported method)
                     end)) /\
  forall k, attempts = seqZ k (maxRetries + 1 - k) ->
            sleeps tr = (fun j => 1000 * j) <$> seqZ k (maxRetries - k).
Proof.
  intros Hm H. remember (res, w', tr) as out eqn:Hout. revert res w' tr Hout.
  induction H; intros res' w' tr' [= <- <- <-];
    try (exfalso; eapply Hm; eassumption).
  - repeat split; try reflexivity. intros k Hk.
    destruct (Z.lt_ge_cases 0 (maxRetries + 1 - k)) as [Hpos | Hneg].
    + rewrite seqZ_cons in Hk by lia. discriminate.
    + rewrite seqZ_nil by lia. reflexivity.
  - destruct (IHloop_run _ _ _ eq_refl) as (Hrq & Hans & Hres & Hsleeps).
    simpl. split; [exact Hrq |]. split; [exact Hans |]. split.
    + rewrite Hres. destruct rest; reflexivity.
    + intros k Hk.
      assert (Hpos : 0 < maxRetries + 1 - k).
      { destruct (Z.lt_ge_cases 0 (maxRetries + 1 - k)); [assumption |].
        rewrite seqZ_nil in Hk by lia. discriminate. }
      rewrite seqZ_cons in Hk by lia. injection Hk as -> Hrest.
      rewrite (seqZ_cons k (maxRetries - k)) by lia. rewrite fmap_cons.
      cbn [sleeps omap list_omap]. fold (sleeps t2).
      rewrite (Hsleeps (k + 1)) by (rewrite Hrest; f_equal; lia).
      f_equal. f_equal. f_equal; lia.
  - destruct (IHloop_run _ _ _ eq_refl) as (Hrq & Hans & Hres & Hsleeps).
    split; [exact Hrq |]. split; [exact Hans |]. split.
    + rewrite Hres. destruct rest; reflexivity.
    + intros k Hk.
      assert (Hpos : 0 < maxRetries + 1 - k).
      { destruct (Z.lt_ge_cases 0 (maxRetries + 1 - k)); [assumption |].
        rewrite seqZ_nil in Hk by lia. discriminate. }
      rewrite seqZ_cons in Hk by lia. injection Hk as -> Hrest.
      rewrite seqZ_nil in Hrest by lia. subst rest.
      inversion H1; subst. rewrite seqZ_nil by lia. reflexivity.
Qed.

Lemma total_backoff k n :
  0 <= n ->
  total ((fun j => 1000 * j) <$> seqZ k n) = 500 * n * (2 * k + n - 1).
Proof.
  intros Hn. rewrite <- (Z2Nat.id n) by lia. clear Hn. revert k.
  induction (Z.to_nat n) as [| m IH]; intros k.
  - reflexivity.
  - rewrite seqZ_cons by lia. rewrite fmap_cons. unfold total in *.
    cbn [foldr]. replace (Z.pred (Z.of_nat (S m))) with (Z.of_nat m) by lia.
    rewrite IH. nia.
Qed.

(** X4.  Without [options.retries] a request is one attempt and nothing is
    slept: the response of the transport is returned when its body can be
    read; the error of the transport, or the error of reading the body,
    is thrown otherwise. *)
Theorem default_is_a_single_attempt this v path options w :
  opt_retries options = None ->
  let out := makeRequest R env this (verb_name v) path options w in
  exists a,
    answers (trace out) = [a] /\
    sleeps (trace out) = [] /\
    match a with
    | inl e => result out = Throw (Some e)
    | inr r =>
        match resp_text r with
        | inr text =>
            exists d, result out = Normal d /\ status d = resp_status r /\
                      rawBody d = text
        | inl e => result out = Throw (Some e)
        end
    end.
Proof.
  intros Hn out. subst out.
  destruct (makeRequest_observed this (verb_name v) path options w)
    as (res & w' & tr & Hrun & -> & -> & -> & _).
  rewrite Hn in Hrun. cbn [nullish] in Hrun. change (seqZ 1 1) with [1] in Hrun.
  inversion Hrun; subst; try lia;
    try match goal with
        | H : forall v', verb_name v <> verb_name v' |- _ =>
            exfalso; exact (H v eq_refl)
        end;
    try match goal with
        | H : loop_run _ _ _ _ [] _ _ _ |- _ => inversion H; subst
        end.
  - eexists. split; [reflexivity |]. split; [reflexivity |]. cbn beta iota.
    match goal with
    | H : parseResponse _ _ _ _ = inr ?d |- _ =>
        destruct (parseResponse_fulfilled _ _ _ _ _ H) as (-> & Hstatus & _);
        exists d; auto
    end.
  - eexists. split; [reflexivity |]. split; reflexivity.
  - eexists. split; [reflexivity |]. split; [reflexivity |]. cbn beta iota.
    match goal with H : resp_text _ = inl _ |- _ => rewrite H end.
    reflexivity.
Qed.

(** X5.  Whatever the transport does, a request makes at most [retries]
    calls to it (none when [retries] is zero or negative). *)
Theorem attempts_never_exceed_budget this method path options w :
  (length (answers (trace (makeRequest R env this method path options w)))
   <= Z.to_nat (nullish (opt_retries options) 1))%nat.
Proof.
  destruct (makeRequest_observed this method path options w)
    as (res & w' & tr & Hrun & _ & -> & _).
  apply run_attempts_bound in Hrun. rewrite length_seqZ in Hrun. exact Hrun.
Qed.

(** X6.  A request that made [m] attempts has slept [500 * m * (m - 1)] ms
    in all, that is at most [500 * n * (n - 1)] ms for a budget of [n]
    retries. *)
Theorem total_backoff_delay this v path options w :
  let out := makeRequest R env this (verb_name v) path options w in
  let m := Z.of_nat (length (answers (trace out))) in
  let n := nullish (opt_retries options) 1 in
  total (sleeps (trace out)) = 500 * m * (m - 1) /\
  (0 <= n -> total (sleeps (trace out)) <= 500 * n * (n - 1)).
Proof.
  intros out m n. subst out.
  destruct (makeRequest_observed this (verb_name v) path options w)
    as (res & w' & tr & Hrun & _ & Hans & Hsl & _).
  fold n in Hrun. subst m. rewrite Hans, Hsl.
  assert (Hbound : (length (answers tr) <= Z.to_nat n)%nat).
  { apply run_attempts_bound in Hrun. rewrite length_seqZ in Hrun. exact Hrun. }
  assert (Hsleeps : sleeps tr = (fun k => 1000 * k)
                                  <$> seqZ 1 (Z.of_nat (length (answers tr)) - 1)).
  { rewrite sleeps_timeline.
    rewrite (run_timeline R _ _ _ v eq_refl _ _ _ _ _ _ Hrun 1)
      by (f_equal; lia).
    apply backoff_schedule_waits. }
  assert (Htotal : total (sleeps tr)
                   = 500 * Z.of_nat (length (answers tr))
                     * (Z.of_nat (length (answers tr)) - 1)).
  { rewrite Hsleeps. destruct (length (answers tr)) as [| j].
    - reflexivity.
    - rewrite total_backoff by lia. lia. }
  split; [exact Htotal |]. intros Hn. rewrite Htotal. nia.
Qed.

(** X7.  A request that returns hands the metrics collector one response
    time, the [responseTime] of its result, which is the time the clock
    advanced over the one call that was answered: earlier attempts and
    delays do not count.  A request that throws records none. *)
Theorem one_metric_per_response this method path options w :
  let out := makeRequest R env this method path options w in
  match result out with
  | Normal d =>
      metrics (trace out) = [responseTime d] /\
      exists v ro w0 w1 r,
        rt_request R v (url d) ro w0 = (inr r, w1) /\
        responseTime d = rt_now R w1 - rt_now R w0
  | Throw _ => metrics (trace out) = []
  end.
Proof.
  intros out. subst out.
  destruct (makeRequest_observed this method path options w)
    as (res & w' & tr & Hrun & -> & _ & _ & -> & _).
  pose proof (run_metrics _ _ _ _ _ _ _ _ _ Hrun) as Hm.
  destruct (run_urls R _ _ _ _ _ _ _ _ _ Hrun) as [_ Hurl].
  destruct res as [[d | e] | x]; try exact Hm.
  rewrite (Hurl d eq_refl). exact Hm.
Qed.

(** X8.  With a method other than GET, POST, PUT, PATCH and DELETE the
    transport is never called; the error of [executeRequest] is caught
    like a transport error, so the request still sleeps through its
    backoff before it throws. *)
Theorem unsupported_method_never_reaches_transport this method path options w :
  verb_of method = None ->
  let out := makeRequest R env this method path options w in
  let n := nullish (opt_retries options) 1 in
  requests (trace out) = [] /\
  sleeps (trace out) = (fun k => 1000 * k) <$> seqZ 1 (n - 1) /\
  (1 <= n ->
   result out
   = Throw (Some {| message := "Unsupported HTTP method: " +:+ method |})).
Proof.
  intros Hv' out n. subst out.
  pose proof (proj1 (verb_of_None method) Hv') as Hv.
  destruct (makeRequest_observed this method path options w)
    as (res & w' & tr & Hrun & -> & _ & -> & _ & ->).
  fold n in Hrun.
  destruct (run_unsupported _ _ _ _ _ _ _ _ _ Hv Hrun)
    as (Hrq & _ & -> & Hsl).
  split; [exact Hrq |]. split.
  - apply Hsl. f_equal. lia.
  - intros Hn. rewrite seqZ_cons by lia. reflexivity.
Qed.

(** X9.  After [setAuthToken(token)] every request of the client carries
    [Authorization: Bearer token], unless the call brings an
    [Authorization] header of its own; the base URL and the other default
    headers are as before. *)
Theorem auth_token_is_sent this token (w0 : W) this' method path options w :
  result (setAuthToken this token w0) = Normal this' ->
  baseUrl this' = baseUrl this /\
  (forall key, key <> "Authorization" ->
               defaultHeaders this' !! key = defaultHeaders this !! key) /\
  Forall (fun q =>
            rq_headers q.2 !! "Authorization"
            = Some (default ("Bearer " +:+ token)
                            (opt_headers options
                               ≫= (fun hs => hs !! "Authorization"))))
         (requests (trace (makeRequest R env this' method path options w))).
Proof.
  intros [= <-]. split; [reflexivity |]. split.
  - intros key Hkey. cbn. unfold assign. cbn.
    rewrite lookup_insert_ne by congruence. reflexivity.
  - eapply Forall_impl; [apply makeRequest_requests |].
    intros [[v' u] ro] (_ & _ & ->). cbn [snd requestOptions rq_headers].
    unfold spread. cbn [defaultHeaders]. unfold assign. cbn [String.eqb].
    cbn.
    destruct (opt_headers options) as [hs |]; cbn.
    + rewrite lookup_union, lookup_insert_eq.
      destruct (hs !! "Authorization"); reflexivity.
    + rewrite lookup_insert_eq. reflexivity.
Qed.

(** X10.  [clearAuthToken] after [setAuthToken] leaves a client without a
    default [Authorization] header and otherwise equal to the first one:
    its requests carry [Authorization] only when the call brings it. *)
Theorem clear_undoes_set this token (w0 w1 : W) this1 this2
        method path options w :
  result (setAuthToken this token w0) = Normal this1 ->
  result (clearAuthToken this1 w1) = Normal this2 ->
  baseUrl this2 = baseUrl this /\
  defaultHeaders this2 = base.delete "Authorization" (defaultHeaders this) /\
  (defaultHeaders this !! "Authorization" = None ->
   defaultHeaders this2 = defaultHeaders this) /\
  Forall (fun q =>
            rq_headers q.2 !! "Authorization"
            = opt_headers options ≫= (fun hs => hs !! "Authorization"))
         (requests (trace (makeRequest R env this2 method path options w))).
Proof.
  intros [= <-] [= <-]. cbn [baseUrl defaultHeaders].
  assert (Hdel : base.delete "Authorization"
                   (assign "Authorization" ("Bearer " +:+ token)
                           (defaultHeaders this))
                 = base.delete "Authorization" (defaultHeaders this)).
  { unfold assign. cbn. apply delete_insert_eq. }
  split; [reflexivity |]. split; [exact Hdel |]. split.
  - intros Hnone. rewrite Hdel. apply delete_id. exact Hnone.
  - eapply Forall_impl; [apply makeRequest_requests |].
    intros [[v' u] ro] (_ & _ & ->). cbn [snd requestOptions rq_headers].
    unfold spread. cbn [defaultHeaders]. rewrite Hdel.
    destruct (opt_headers options) as [hs |]; cbn.
    + rewrite lookup_union, lookup_delete_eq.
      destruct (hs !! "Authorization"); reflexivity.
    + apply lookup_delete_eq.
Qed.

(** X11.  A client made by the constructor has the given base URL, or
    [ENV_CONFIG.API_BASE_URL] when none is given, and sends
    [Content-Type] and [Accept] with every request: [application/json]
    unless the constructor's or the call's headers say otherwise. *)
Theorem constructed_client_sends_json_headers
        base defaults (w0 : W) this method path options w :
  result (new env base defaults w0) = Normal this ->
  baseUrl this = default (API_BASE_URL env) base /\
  Forall (fun q =>
            forall key, key = "Content-Type" \/ key = "Accept" ->
              rq_headers q.2 !! key
              = Some (default
                        (default "application/json"
                                 (defaults ≫= (fun hs => hs !! key)))
                        (opt_headers options ≫= (fun hs => hs !! key))))
         (requests (trace (makeRequest R env this method path options w))).
Proof.
  intros [= <-]. split; [reflexivity |].
  eapply Forall_impl; [apply makeRequest_requests |].
  intros [[v' u] ro] (_ & _ & ->) key Hkey.
  cbn [snd requestOptions rq_headers defaultHeaders].
  assert (Hbuiltin :
            (<["Accept":="application/json"]>
               ({["Content-Type" := "application/json"]} : gmap string string))
              !! key = Some "application/json").
  { destruct Hkey as [-> | ->].
    - rewrite lookup_insert_ne by discriminate. apply lookup_singleton_eq.
    - apply lookup_insert_eq. }
  unfold spread.
  destruct (opt_headers options) as [hs |], defaults as [ds |]; cbn;
    rewrite ?lookup_union, ?Hbuiltin;
    repeat match goal with
           | |- context [?m !! key] =>
               is_var m; destruct (m !! key); cbn
           end; reflexivity.
Qed.
End Outcome.

(** ** At concrete requests *)

(** A POST sends the body; a GET with the same options does not. *)
Lemma body_sent_only_with_post_put_patch_witness :
  let sent verb :=
    requests (trace (makeRequest (scripted [inr not_found]) default_env
                       example_client (verb_name verb) "/posts" post_options
                       (0%nat, 0))) in
  (rq_data <$> (snd <$> sent POST)) = [opt_body post_options] /\
  (rq_data <$> (snd <$> sent GET)) = [None] /\
  Forall (fun q => q.1.1 = POST /\ rq_data q.2 = opt_body post_options)
         (sent POST) /\
  Forall (fun q => q.1.1 = GET /\ rq_data q.2 = None) (sent GET).
Proof.
  intros sent.
  split; [vm_compute; reflexivity |]. split; [vm_compute; reflexivity |].
  split.
  - exact (body_sent_only_with_post_put_patch (scripted [inr not_found])
             default_env example_client POST "/posts" post_options (0%nat, 0)).
  - exact (body_sent_only_with_post_put_patch (scripted [inr not_found])
             default_env example_client GET "/posts" post_options (0%nat, 0)).
Defined.

(** The call's [Authorization] wins over the client's, the client's
    [Accept] stays. *)
Lemma call_headers_override_defaults_witness :
  let this := {| baseUrl := "https://api.example";
                 defaultHeaders :=
                   <["Authorization" := "Bearer abc"]>
                     (defaultHeaders example_client) |} in
  let sent :=
    requests (trace (post (scripted [inr not_found]) default_env this
                          "/posts" post_options (0%nat, 0))) in
  length sent = 1%nat /\
  Forall (fun q =>
            rq_headers q.2 !! "Authorization" = Some "Basic dXNlcg==" /\
            rq_headers q.2 !! "Accept" = Some "application/json")
         sent.
Proof.
  intros this sent. split; [vm_compute; reflexivity |].
  eapply Forall_impl.
  - exact (call_headers_override_defaults (scripted [inr not_found])
             default_env this "POST" "/posts" post_options (0%nat, 0)).
  - intros q Hq. split; rewrite Hq; vm_compute; reflexivity.
Defined.

(** [timeout: 0] is sent as the default of 15000 ms. *)
Lemma zero_timeout_falls_back_witness :
  let sent :=
    requests (trace (post (scripted [inr not_found]) default_env
                          example_client "/posts" post_options (0%nat, 0))) in
  length sent = 1%nat /\
  Forall (fun q => rq_timeout q.2 = 15000 /\
                   rq_params q.2 = Some {["page" := "2"]}) sent.
Proof.
  intros sent. split; [vm_compute; reflexivity |].
  eapply Forall_impl.
  - exact (zero_timeout_falls_back (scripted [inr not_found]) default_env
             example_client "POST" "/posts" post_options (0%nat, 0)).
  - intros q (Hp & _ & Ht). split; [apply Ht; right; reflexivity | exact Hp].
Defined.

(** A [get] without options on a transport that throws. *)
Lemma default_is_a_single_attempt_witness :
  let out := get (scripted [inl (reset 1); inr not_found]) default_env
                 example_client "/users" no_options (0%nat, 0) in
  answers (trace out) = [inl (reset 1)] /\
  sleeps (trace out) = [] /\
  result out = Throw (Some (reset 1)).
Proof.
  intros out.
  destruct (default_is_a_single_attempt
              (scripted [inl (reset 1); inr not_found]) default_env
              example_client GET "/users" no_options (0%nat, 0) eq_refl)
    as (a & Hans & Hsl & Hres).
  assert (Ha : a = inl (reset 1)).
  { vm_compute in Hans. injection Hans as <-. reflexivity. }
  subst a. split; [exact Hans |]. split; [exact Hsl | exact Hres].
Defined.

(** Four failed attempts sleep 1000 + 2000 + 3000 ms. *)
Lemma total_backoff_delay_witness :
  let out := get (scripted []) default_env example_client "/users"
                 (with_retries 4) (0%nat, 0) in
  length (answers (trace out)) = 4%nat /\
  total (sleeps (trace out)) = 6000.
Proof.
  intros out. subst out. unfold get.
  assert (Hlen : length (answers (trace
                   (makeRequest (scripted []) default_env example_client
                      "GET" "/users" (with_retries 4) (0%nat, 0)))) = 4%nat)
    by (vm_compute; reflexivity).
  split; [exact Hlen |].
  destruct (total_backoff_delay (scripted []) default_env example_client GET
              "/users" (with_retries 4) (0%nat, 0)) as [Htotal Hbound].
  cbn [verb_name] in Htotal. rewrite Hlen in Htotal. exact Htotal.
Defined.

(** Two failures, two delays, then an answer that took 5 ms. *)
Lemma one_metric_per_response_witness :
  let out := get (scripted [inl (reset 1); inl (reset 2); inr not_found])
                 default_env example_client "/users" (with_retries 3)
                 (0%nat, 0) in
  exists d, result out = Normal d /\
            responseTime d = 5 /\
            metrics (trace out) = [5].
Proof.
  intros out.
  pose proof (one_metric_per_response
                (scripted [inl (reset 1); inl (reset 2); inr not_found])
                default_env example_client "GET" "/users" (with_retries 3)
                (0%nat, 0)) as Hm.
  cbv zeta in Hm. subst out. unfold get.
  destruct (result _) as [d | x] eqn:Hres; [| vm_compute in Hres; discriminate].
  destruct Hm as [Hm _].
  assert (Ht : responseTime d = 5).
  { vm_compute in Hres. injection Hres as <-. reflexivity. }
  exists d. split; [reflexivity |]. split; [exact Ht |]. rewrite Hm, Ht.
  reflexivity.
Defined.

(** A HEAD request with [retries: 3]. *)
Lemma unsupported_method_never_reaches_transport_witness :
  let out := makeRequest (scripted [inr not_found]) default_env
                         example_client "HEAD" "/users" (with_retries 3)
                         (0%nat, 0) in
  requests (trace out) = [] /\
  sleeps (trace out) = [1000; 2000] /\
  result out = Throw (Some {| message := "Unsupported HTTP method: HEAD" |}).
Proof.
  intros out.
  destruct (unsupported_method_never_reaches_transport
              (scripted [inr not_found]) default_env example_client "HEAD"
              "/users" (with_retries 3) (0%nat, 0) eq_refl)
    as (Hrq & Hsl & Hres).
  split; [exact Hrq |]. split; [exact Hsl |]. apply Hres. cbn. lia.
Defined.

(** A token set on the example client. *)
Lemma auth_token_is_sent_witness :
  exists this',
    result (setAuthToken example_client "abc" (0%nat, 0)) = Normal this' /\
    Forall (fun q => rq_headers q.2 !! "Authorization" = Some "Bearer abc")
           (requests (trace (get (scripted [inr not_found]) default_env this'
                                 "/users" no_options (0%nat, 0)))).
Proof.
  eexists. split; [reflexivity |].
  exact (proj2 (proj2 (auth_token_is_sent (scripted [inr not_found])
                         default_env example_client "abc" (0%nat, 0) _ "GET"
                         "/users" no_options (0%nat, 0) eq_refl))).
Defined.

(** The token set and cleared again. *)
Lemma clear_undoes_set_witness :
  exists this1 this2,
    result (setAuthToken example_client "abc" (0%nat, 0)) = Normal this1 /\
    result (clearAuthToken this1 (0%nat, 0)) = Normal this2 /\
    defaultHeaders this2 = defaultHeaders example_client.
Proof.
  eexists _, _. split; [reflexivity |]. split; [reflexivity |].
  destruct (clear_undoes_set (scripted [inr not_found]) default_env
              example_client "abc" (0%nat, 0) (0%nat, 0) _ _ "GET" "/users"
              no_options (0%nat, 0) eq_refl eq_refl) as (_ & _ & Hsame & _).
  apply Hsame. vm_compute. reflexivity.
Defined.

(** [new ApiClient(request)] with the environment's defaults. *)
Lemma constructed_client_sends_json_headers_witness :
  exists this,
    result (new default_env None None (0%nat, 0)) = Normal this /\
    baseUrl this = "https://jsonplaceholder.typicode.com" /\
    Forall (fun q =>
              rq_headers q.2 !! "Content-Type" = Some "application/json")
           (requests (trace (get (scripted [inr not_found]) default_env this
                                 "/users" no_options (0%nat, 0)))).
Proof.
  eexists. split; [reflexivity |].
  destruct (constructed_client_sends_json_headers (scripted [inr not_found])
              default_env None None (0%nat, 0) _ "GET" "/users" no_options
              (0%nat, 0) eq_refl) as [Hbase Hall].
  split; [exact Hbase |].
  eapply Forall_impl; [exact Hall |].
  intros q Hq. apply (Hq "Content-Type"). left. reflexivity.
Defined.
End ApiClientMore.

(** * More properties of the self-healing locator *)
Module AutoHealMore.
Import AutoHeal AutoHealFacts.

Section Healing.
Context {W : Type} (R : Runtime W).

(** X12.  When the primary locator becomes visible in time it is returned
    at once, with healing enabled or not: no strategy is evaluated and
    nothing is logged. *)
Theorem primary_success_short_circuits primary context config w w1 :
  rt_waitFor R primary (timeout config) w = (None, w1) ->
  autoHealLocator R primary context config w
  = (Normal primary, w1, [WaitFor primary (timeout config) true]).
Proof.
  intros Hprimary. unfold autoHealLocator. heal_unfold.
  rewrite Hprimary. reflexivity.
Qed.

(** The waits of [autoHealLocator]: the primary one, then those of the
    strategy loop when it runs. *)
Lemma autoHealLocator_cases primary context config w :
  let out := autoHealLocator R primary context config w in
  (result out = Normal primary /\
   waits (trace out) = [(primary, timeout config, true)])
  \/ (enabled config = false /\
      (exists e, result out = Throw e) /\
      waits (trace out) = [(primary, timeout config, false)])
  \/ (enabled config = true /\
      exists w1,
        let loop := heal_loop R HEALING_STRATEGIES context config w1 in
        waits (trace out) = (primary, timeout config, false) :: waits (trace loop) /\
        result out = match result loop with
                     | Normal (Some found) => Normal found
                     | Normal None => Throw (exhausted context)
                     | Throw x => Throw x
                     end).
Proof.
  intros out. subst out.
  destruct (rt_waitFor R primary (timeout config) w) as [[e |] w1] eqn:Hp.
  - destruct (enabled config) eqn:Hen.
    + right; right. split; [reflexivity |]. exists w1.
      exact (autoHealLocator_heals R primary context config w e w1 Hen Hp).
    + right; left. split; [reflexivity |].
      unfold autoHealLocator. heal_unfold. rewrite Hp, Hen.
      split; [eexists |]; reflexivity.
  - left. unfold autoHealLocator. heal_unfold. rewrite Hp.
    split; reflexivity.
Qed.

(** X13.  A locator that [autoHealLocator] returns was seen visible by
    the last wait made, and it is the primary locator or the first match
    of the locator of one of the strategies. *)
Theorem returned_locator_was_seen_visible primary context config w found :
  let out := autoHealLocator R primary context config w in
  result out = Normal found ->
  (exists ms, last (waits (trace out)) = Some (found, ms, true)) /\
  (found = primary \/
   exists strategy, strategy ∈ HEALING_STRATEGIES /\
                    found = first (locate strategy context)).
Proof.
  intros out Hres. subst out.
  destruct (autoHealLocator_cases primary context config w)
    as [[Hok Hw] | [(_ & [e He] & _) | (_ & w1 & Hw & Hr)]];
    cbv zeta in *.
  - rewrite Hok in Hres. injection Hres as <-. rewrite Hw.
    split; [eexists; reflexivity | left; reflexivity].
  - rewrite He in Hres. discriminate.
  - rewrite Hw. rewrite Hr in Hres.
    destruct (heal_loop_run R context config HEALING_STRATEGIES w1)
      as [(losers & winner & rest & Hsplit & Hlw & Hlr) | (_ & Hlr)];
      rewrite Hlr in Hres; [| discriminate].
    injection Hres as <-. rewrite Hlw. split.
    + exists 2000. rewrite app_comm_cons, last_snoc. reflexivity.
    + right. exists winner. split; [| reflexivity].
      rewrite Hsplit. apply elem_of_app. right. left.
Qed.

(** X14.  Whatever the page does, [autoHealLocator] waits once on the
    primary locator, for [config.timeout], and then at most five times,
    for 2000 ms each. *)
Theorem waits_are_bounded primary context config w :
  exists visible rest,
    waits (trace (autoHealLocator R primary context config w))
    = (primary, timeout config, visible) :: rest /\
    (length rest <= 5)%nat /\
    Forall (fun x => x.1.2 = 2000) rest.
Proof.
  destruct (autoHealLocator_cases primary context config w)
    as [[_ Hw] | [(_ & _ & Hw) | (_ & w1 & Hw & _)]]; cbv zeta in Hw;
    rewrite Hw.
  - exists true, []. repeat split; [simpl; lia | constructor].
  - exists false, []. repeat split; [simpl; lia | constructor].
  - eexists false, _. split; [reflexivity |].
    destruct (heal_loop_run R context config HEALING_STRATEGIES w1)
      as [(losers & winner & rest & Hsplit & -> & _) | (-> & _)].
    + apply (f_equal length) in Hsplit.
      rewrite length_app in Hsplit. cbn in Hsplit. split.
      * rewrite length_app, length_fmap. cbn. lia.
      * apply Forall_app. split; [| repeat constructor].
        apply Forall_fmap. apply Forall_forall. reflexivity.
    + split; [rewrite length_fmap; reflexivity |].
      apply Forall_fmap. apply Forall_forall. reflexivity.
Qed.

Lemma warnings_app t1 t2 : warnings (t1 ++ t2) = warnings t1 ++ warnings t2.
Proof. apply omap_app. Qed.

(** [logWarnings] changes what one turn of the strategy loop logs, and
    nothing else. *)
Lemma try_strategy_logWarnings strategy context config w :
  let out b := try_strategy R strategy context (with_logWarnings b config) w in
  (out true).1 = (out false).1 /\
  waits (trace (out true)) = waits (trace (out false)) /\
  warnings (trace (out false)) = [].
Proof.
  intros out. subst out. unfold try_strategy. heal_unfold. simpl.
  destruct (rt_waitFor R (first (locate strategy context)) 2000 w)
    as [[e |] w1]; simpl; auto.
Qed.

Lemma heal_loop_logWarnings strategies context config w :
  let out b := heal_loop R strategies context (with_logWarnings b config) w in
  (out true).1 = (out false).1 /\
  waits (trace (out true)) = waits (trace (out false)) /\
  warnings (trace (out false)) = [].
Proof.
  revert w. induction strategies as [| strategy rest IH]; intros w out; subst out.
  - auto.
  - cbn [heal_loop]. unfold mbind, Eff_mbind, eff_bind.
    destruct (try_strategy_logWarnings strategy context config w)
      as (H1 & Hw & Hq). cbv beta in *.
    destruct (try_strategy R strategy context (with_logWarnings true config) w)
      as [[r1 w1] t1].
    destruct (try_strategy R strategy context (with_logWarnings false config) w)
      as [[r2 w2] t2].
    unfold trace in *. cbn [fst snd] in *. injection H1 as <- <-.
    destruct r1 as [[found |] | x].
    + unfold mret, Eff_mret, eff_ret. cbn [fst snd].
      rewrite !waits_app, warnings_app, Hw, Hq. auto.
    + destruct (IH w1) as (H1 & Hw' & Hq'). cbv beta in *.
      destruct (heal_loop R rest context (with_logWarnings true config) w1)
        as [[r3 w3] t3].
      destruct (heal_loop R rest context (with_logWarnings false config) w1)
        as [[r4 w4] t4].
      unfold trace in *. cbn [fst snd] in *. injection H1 as <- <-.
      rewrite !waits_app, warnings_app, Hw, Hw', Hq, Hq'. auto.
    + cbn [fst snd]. auto.
Qed.

(** X15.  [logWarnings] decides whether warnings are logged and nothing
    else: with it and without it [autoHealLocator] ends the same way, in
    the same world, after the same waits; without it no warning is
    logged. *)
Theorem logWarnings_only_changes_the_log primary context config w :
  let out b :=
    autoHealLocator R primary context (with_logWarnings b config) w in
  (out true).1 = (out false).1 /\
  waits (trace (out true)) = waits (trace (out false)) /\
  warnings (trace (out false)) = [].
Proof.
  intros out. subst out. unfold autoHealLocator.
  pose proof (heal_loop_logWarnings HEALING_STRATEGIES context config) as Hloop.
  cbv zeta beta in Hloop.
  set (hlT := heal_loop R HEALING_STRATEGIES context
                        (with_logWarnings true config)) in *.
  set (hlF := heal_loop R HEALING_STRATEGIES context
                        (with_logWarnings false config)) in *.
  clearbody hlT hlF. heal_unfold. cbn [timeout enabled logWarnings with_logWarnings].
  destruct (rt_waitFor R primary (timeout config) w) as [[e |] w1];
    [| simpl; auto].
  destruct (enabled config); simpl; [| auto].
  destruct (Hloop w1) as (H1 & Hw & Hq).
  destruct (hlT w1) as [[r1 w2] t1]. destruct (hlF w1) as [[r2 w3] t2].
  unfold trace in *. cbn [fst snd] in *. injection H1 as <- <-.
  destruct r1 as [[found |] | x]; simpl;
    rewrite ?waits_app, ?warnings_app, ?Hw, ?Hq; simpl; auto.
Qed.

(** X16.  [resilientLocator] waits on [page.locator(selector)] for
    5000 ms with healing enabled: when it throws, the error is the one
    for exhausted strategies and names [selector]. *)
Theorem resilient_locator_heals_by_default selector healContext w :
  let out := resilientLocator R selector healContext w in
  (exists visible rest,
      waits (trace out) = (locator selector, 5000, visible) :: rest) /\
  (forall e, result out = Throw e ->
             e = {| message := "Auto-heal exhausted all strategies for: "
                               +:+ quote +:+ selector +:+ quote +:+ ". "
                               +:+ "Element not found on the page." |}).
Proof.
  intros out. subst out. unfold resilientLocator.
  set (context := {| originalSelector := selector |}).
  destruct (autoHealLocator_cases (locator selector) context DEFAULT_CONFIG w)
    as [[Hok Hw] | [(Hen & _) | (_ & w1 & Hw & Hr)]]; cbv zeta in *.
  - split; [eexists _, _; exact Hw |]. intros e He. rewrite Hok in He.
    discriminate.
  - discriminate Hen.
  - split; [eexists _, _; exact Hw |]. intros e He. rewrite Hr in He.
    destruct (heal_loop_run R context DEFAULT_CONFIG HEALING_STRATEGIES w1)
      as [(losers & winner & rest & _ & _ & Hlr) | (_ & Hlr)];
      rewrite Hlr in He; [discriminate |].
    injection He as <-. reflexivity.
Qed.
End Healing.

(** X17.  With a context that gives no hint (no role, text, placeholder or
    test id) every strategy falls back to the same query, so on a page
    without an element named [__nonexistent__] healing cannot succeed:
    [autoHealLocator] throws the error for exhausted strategies. *)
Theorem no_hints_no_healing page primary context config :
  enabled config = true ->
  visible_on page primary = false ->
  Forall (fun e => lower_case (tagName e) <> "__nonexistent__") page ->
  nonempty (role context) = None ->
  nonempty (text context) = None ->
  nonempty (placeholder context) = None ->
  nonempty (testId context) = None ->
  result (autoHealLocator (static_page page) primary context config tt)
  = Throw (exhausted context).
Proof.
  intros Hen Hprimary Hpage Hrole Htext Hph Htid.
  destruct (autoHealLocator_heals (static_page page) primary context config tt
              {| message := "locator.waitFor: Timeout "
                            +:+ pretty (timeout config) +:+ "ms exceeded." |}
              tt Hen) as [_ ->].
  { simpl. rewrite Hprimary. reflexivity. }
  unfold static_page. rewrite heal_loop_fixed.
  assert (Hsentinel : visible_on page (first (locator "__nonexistent__")) = false).
  { unfold visible_on. cbn [select].
    assert (Hnone : List.filter (matches (locator "__nonexistent__")) page = []).
    { clear Hprimary. induction Hpage as [| e page He _ IH]; [reflexivity |].
      cbn [List.filter].
      replace (matches (locator "__nonexistent__") e)
        with (String.eqb (lower_case (tagName e)) "__nonexistent__")
        by reflexivity.
      destruct (String.eqb_spec (lower_case (tagName e)) "__nonexistent__");
        [contradiction | exact IH]. }
    rewrite Hnone. reflexivity. }
  unfold HEALING_STRATEGIES. cbn [List.find locate].
  rewrite Hrole, Htext, Hph, Htid, Hsentinel. reflexivity.
Qed.

(** ** On concrete pages *)

(** The login button is where the test expects it. *)
Lemma primary_success_short_circuits_witness :
  autoHealLocator (static_page [login_link; login_button])
                  (locator "#login-btn") (button_context "#login-btn")
                  DEFAULT_CONFIG tt
  = (Normal (locator "#login-btn"), tt,
     [WaitFor (locator "#login-btn") 5000 true]).
Proof.
  exact (primary_success_short_circuits
           (static_page [login_link; login_button]) (locator "#login-btn")
           (button_context "#login-btn") DEFAULT_CONFIG tt tt eq_refl).
Defined.

(** The button healed by role. *)
Lemma returned_locator_was_seen_visible_witness :
  let out := autoHealLocator (static_page [login_link; login_button])
                             (locator "#old-login")
                             (button_context "#old-login") DEFAULT_CONFIG tt in
  last (waits (trace out))
  = Some (first (getByRole "button" (Some "Login")), 2000, true).
Proof.
  intros out.
  destruct (returned_locator_was_seen_visible
              (static_page [login_link; login_button]) (locator "#old-login")
              (button_context "#old-login") DEFAULT_CONFIG tt
              (first (getByRole "button" (Some "Login")))
              ltac:(vm_compute; reflexivity)) as [[ms Hlast] _].
  fold out in Hlast. rewrite Hlast.
  vm_compute in Hlast. injection Hlast as <-. reflexivity.
Defined.

(** No hint and no stray element: healing fails. *)
Lemma no_hints_no_healing_witness :
  result (autoHealLocator (static_page [login_link; login_button])
                          (locator "#old-login") (bare_context "#old-login")
                          DEFAULT_CONFIG tt)
  = Throw (exhausted (bare_context "#old-login")).
Proof.
  apply no_hints_no_healing; try reflexivity.
  repeat constructor; vm_compute; discriminate.
Defined.

(** A selector that is gone, with a context that does not help. *)
Lemma resilient_locator_heals_by_default_witness :
  let out := resilientLocator (static_page [login_link])
                              "#old-login" (bare_context "ignored") tt in
  result out
  = Throw {| message := "Auto-heal exhausted all strategies for: "
                        +:+ quote +:+ "#old-login" +:+ quote +:+ ". "
                        +:+ "Element not found on the page." |}.
Proof.
  intros out.
  destruct (resilient_locator_heals_by_default (static_page [login_link])
              "#old-login" (bare_context "ignored") tt) as [_ Hthrow].
  fold out in Hthrow.
  destruct (result out) as [l | e] eqn:Hres;
    [vm_compute in Hres; discriminate |].
  rewrite (Hthrow e eq_refl). reflexivity.
Defined.
End AutoHealMore.

(** * Properties of the response validators *)
Module ApiValidatorFacts.
Import ApiClient ApiValidator.

Ltac check_unfold :=
  unfold mbind, mret, Eff_mbind, Eff_mret, eff_bind, eff_ret, throw, emit,
    log_info, expect_toBe, expect_toBeLessThanOrEqual,
    expect_toBeGreaterThan, expect_toContain in *;
  cbv beta in *.

Lemma lower_ascii_idem c : lower_ascii (lower_ascii c) = lower_ascii c.
Proof.
  destruct c as [[] [] [] [] [] [] [] []]; reflexivity.
Qed.

Lemma lower_case_idem s : lower_case (lower_case s) = lower_case s.
Proof.
  induction s as [| c s IH]; simpl; [reflexivity |].
  rewrite lower_ascii_idem, IH. reflexivity.
Qed.

Lemma header_ok_spec response kv :
  header_ok response kv = true <->
  exists actual, headers response !! lower_case kv.1 = Some actual /\
                 includes kv.2 actual = true.
Proof.
  unfold header_ok.
  destruct (headers response !! lower_case kv.1) as [actual |].
  - split; [eauto | intros (a & [= <-] & Ha); exact Ha].
  - split; [discriminate | intros (a & [=] & _)].
Qed.

Lemma header_ok_all response expected :
  Forall (fun kv => header_ok response kv = true) expected <->
  Forall (fun kv =>
            exists actual,
              headers response !! lower_case kv.1 = Some actual /\
              includes kv.2 actual = true)
         expected.
Proof.
  rewrite !Forall_forall. split; intros H kv Hin;
    apply header_ok_spec, H, Hin.
Qed.

(** One turn of the loop of [validateHeaders]. *)
Lemma validateHeaders_cons response key value rest :
  validateHeaders response ((key, value) :: rest) tt
  = if header_ok response (key, value) then
      let '(r, w, t) := validateHeaders response rest tt in
      (r, w,
       Log INFO ("Validating header: " +:+ key +:+ " contains "
                 +:+ quote +:+ value +:+ quote)
       :: Log INFO ("✅ Header " +:+ quote +:+ key +:+ quote +:+ " verified.")
       :: t)
    else
      (Throw (header_failure response key), tt,
       [Log INFO ("Validating header: " +:+ key +:+ " contains "
                  +:+ quote +:+ value +:+ quote)]).
Proof.
  cbn [validateHeaders]. check_unfold.
  unfold header_ok, header_failure, get_property. cbn [fst snd].
  destruct (headers response !! lower_case key) as [actual |].
  - destruct (includes value actual); [| reflexivity]. simpl.
    destruct (validateHeaders response rest tt) as [[r []] t]. reflexivity.
  - destruct (bool_decide (lower_case key ∈ Object_prototype)); reflexivity.
Qed.

Lemma validateHeaders_outcome response expected :
  (Forall (fun kv => header_ok response kv = true) expected /\
   result (validateHeaders response expected tt) = Normal tt) \/
  (exists passed key value rest,
      expected = passed ++ (key, value) :: rest /\
      Forall (fun kv => header_ok response kv = true) passed /\
      header_ok response (key, value) = false /\
      result (validateHeaders response expected tt)
      = Throw (header_failure response key) /\
      last (trace (validateHeaders response expected tt))
      = Some (Log INFO ("Validating header: " +:+ key +:+ " contains "
                        +:+ quote +:+ value +:+ quote)) /\
      length (trace (validateHeaders response expected tt))
      = S (2 * length passed)).
Proof.
  induction expected as [| [key value] rest IH].
  - left. split; [constructor | reflexivity].
  - rewrite validateHeaders_cons.
    destruct (header_ok response (key, value)) eqn:Hok.
    + destruct (validateHeaders response rest tt) as [[r []] t] eqn:Hrest.
      unfold result, trace in *. simpl in *.
      destruct IH as [[Hall Hres] | (passed & k & v & rest' & -> & Hall & Hno
                                      & Hres & Hlast & Hlen)].
      * left. split; [constructor; assumption | exact Hres].
      * right. exists ((key, value) :: passed), k, v, rest'.
        split; [reflexivity |]. split; [constructor; assumption |].
        split; [exact Hno |]. split; [exact Hres |].
        split.
        -- destruct t as [| e t]; [discriminate |].
           destruct t as [| e' t]; simpl in *; exact Hlast.
        -- simpl. rewrite Hlen. simpl. lia.
    + right. exists [], key, value, rest.
      repeat split; auto.
Qed.




(** X19.  [validateHeaders] stops at the first expected header that the
    response does not satisfy: the headers before it are logged as
    verified, the last line of the log names the failing one, and the
    headers after it are never looked at. *)
Theorem header_check_stops_at_first_failure response expected :
  result (validateHeaders response expected tt) <> Normal tt ->
  exists passed key value rest,
    expected = passed ++ (key, value) :: rest /\
    Forall (fun kv =>
              exists actual,
                headers response !! lower_case kv.1 = Some actual /\
                includes kv.2 actual = true)
           passed /\
    (forall actual, headers response !! lower_case key = Some actual ->
                    includes value actual = false) /\
    last (trace (validateHeaders response expected tt))
    = Some (Log INFO ("Validating header: " +:+ key +:+ " contains "
                      +:+ quote +:+ value +:+ quote)) /\
    length (trace (validateHeaders response expected tt))
    = S (2 * length passed) /\
    forall rest',
      validateHeaders response (passed ++ (key, value) :: rest') tt
      = validateHeaders response expected tt.
Proof.
  intros Hfail.
  destruct (validateHeaders_outcome response expected)
    as [[_ Hres] | (passed & k & v & rest & -> & Hall & Hno & Hres & Hlast
                    & Hlen)]; [congruence |].
  exists passed, k, v, rest.
  split; [reflexivity |]. split; [apply header_ok_all; exact Hall |].
  split.
  { intros actual Hget. unfold header_ok in Hno. simpl in Hno.
    rewrite Hget in Hno. exact Hno. }
  split; [exact Hlast |]. split; [exact Hlen |].
  intros rest'. clear Hfail Hres Hlast Hlen.
  induction Hall as [| [k0 v0] passed Hok Hall IH]; simpl app.
  - rewrite !validateHeaders_cons, Hno. reflexivity.
  - rewrite !validateHeaders_cons, Hok, IH. reflexivity.
Qed.

(** X20.  [validateHeaders] reads [response.headers] at lower-case names
    only: two responses whose headers agree at every lower-case name are
    told apart by no list of expected headers, whatever else they hold
    under names with an upper-case letter. *)
Theorem header_check_reads_lower_case_names_only response response' expected :
  (forall name, lower_case name = name ->
                headers response !! name = headers response' !! name) ->
  validateHeaders response expected tt = validateHeaders response' expected tt.
Proof.
  intros Hagree.
  induction expected as [| [key value] rest IH]; [reflexivity |].
  rewrite !validateHeaders_cons, IH.
  replace (header_ok response' (key, value))
    with (header_ok response (key, value)).
  - replace (header_failure response' key)
      with (header_failure response key); [reflexivity |].
    unfold header_failure, get_property.
    rewrite (Hagree (lower_case key) (lower_case_idem key)). reflexivity.
  - unfold header_ok. simpl.
    rewrite (Hagree (lower_case key) (lower_case_idem key)). reflexivity.
Qed.

Section Client.
Context {W : Type} (R : Runtime W) (env : EnvironmentConfig).

(** X21.  On the result of a request, an expected header is verified
    exactly when the header object of the transport response has an entry
    under the lower-cased expected name, with a value that contains the
    expected text: an entry under the same name in another case does not
    count. *)
Theorem header_check_follows_transport_names
        this method path options w d key value :
  let out := makeRequest R env this method path options w in
  result out = Normal d ->
  exists r,
    last (answers (trace out)) = Some (inr r) /\
    (result (validateHeaders d [(key, value)] tt) = Normal tt <->
     lower_case key <> "__proto__" /\
     exists actual, resp_headers r !! lower_case key = Some actual /\
                    includes value actual = true).
Proof.
  intros out Hd.
  destruct (ApiClientFacts.makeRequest_returned R env this method path options
              w d Hd) as (r & Hlast & Heq).
  exists r. split; [exact Hlast |].
  rewrite validateHeaders_cons.
  assert (Hheaders : headers d = base.delete "__proto__" (resp_headers r)).
  { eapply ApiClientFacts.parseResponse_headers. exact Heq. }
  destruct (header_ok d (key, value)) eqn:Hok.
  - simpl. split; [intros _ | reflexivity].
    apply header_ok_spec in Hok as (actual & Hget & Hin).
    simpl in Hget, Hin. rewrite Hheaders in Hget.
    destruct (decide (lower_case key = "__proto__")) as [Heqk | Hne].
    + rewrite Heqk, lookup_delete_eq in Hget. discriminate.
    + rewrite lookup_delete_ne in Hget by congruence. eauto.
  - simpl. split; [discriminate |].
    intros (Hne & actual & Hget & Hin).
    assert (Hok' : header_ok d (key, value) = true); [| congruence].
    apply header_ok_spec. exists actual. simpl. rewrite Hheaders.
    rewrite lookup_delete_ne by congruence. auto.
Qed.

(** X22.  On the result of a request, [validateStatus] passes for the
    status code of the transport response that was answered and for no
    other; when it fails it throws the error of the expectation after one
    line of log. *)
Theorem status_check_on_result this method path options w d expectedStatus :
  let out := makeRequest R env this method path options w in
  result out = Normal d ->
  exists r,
    last (answers (trace out)) = Some (inr r) /\
    (result (validateStatus d expectedStatus tt) = Normal tt <->
     resp_status r = expectedStatus) /\
    (resp_status r <> expectedStatus ->
     validateStatus d expectedStatus tt
     = (Throw ExpectationFailed, tt,
        [Log INFO ("Validating status: expected " +:+ pretty expectedStatus
                   +:+ ", got " +:+ pretty (resp_status r))])).
Proof.
  intros out Hd.
  destruct (ApiClientFacts.makeRequest_returned R env this method path options
              w d Hd) as (r & Hlast & Heq).
  exists r. split; [exact Hlast |].
  assert (Hstatus : status d = resp_status r).
  { apply (ApiClientFacts.parseResponse_fulfilled _ _ _ _ _ Heq). }
  unfold validateStatus. check_unfold. rewrite Hstatus.
  destruct (Z.eqb_spec (resp_status r) expectedStatus) as [-> | Hne]; simpl.
  - split; [tauto | congruence].
  - split; [split; [discriminate | congruence] | reflexivity].
Qed.

(** X23.  [validateBodyIsArray] on the result of a request.  When the
    response text is no JSON the body is a string and the check fails as
    an expectation, whatever the key; when the text is the JSON [null]
    the check throws a [TypeError] instead; when the text is a JSON
    object the check passes exactly for the keys whose value is an array
    with at least one item. *)
Theorem array_check_on_result this method path options w d arrayKey :
  let out := makeRequest R env this method path options w in
  result out = Normal d ->
  exists r,
    last (answers (trace out)) = Some (inr r) /\
    resp_text r = inr (rawBody d) /\
    match Json.JSON_parse (rawBody d) with
    | None =>
        result (validateBodyIsArray d arrayKey tt) = Throw ExpectationFailed
    | Some JsNull =>
        result (validateBodyIsArray d arrayKey tt) = Throw TypeError
    | Some (JsObject fields) =>
        result (validateBodyIsArray d arrayKey tt) = Normal tt <->
        exists item items,
          own_property arrayKey fields = Some (JsArray (item :: items))
    | Some _ => True
    end.
Proof.
  intros out Hd.
  destruct (ApiClientFacts.makeRequest_returned R env this method path options
              w d Hd) as (r & Hlast & Heq).
  exists r. split; [exact Hlast |].
  destruct (ApiClientFacts.parseResponse_fulfilled _ _ _ _ _ Heq)
    as (Hraw & _ & _ & Hbody & _).
  split; [exact Hraw |].
  unfold validateBodyIsArray. check_unfold. rewrite Hbody.
  destruct (Json.JSON_parse (rawBody d)) as [[| | | | | fields] |];
    try exact I; try reflexivity.
  cbn [array_at].
  destruct (own_property arrayKey fields) as [[| | | | items |] |];
    try (simpl; split; [discriminate | intros (? & ? & [=])]).
  destruct items as [| item items]; simpl.
  - split; [discriminate | intros (? & ? & [=])].
  - split; [eauto | reflexivity].
Qed.

End Client.

(** ** The properties at sample responses *)

Example user_list_parsed :
  parseResponse user_list "GET" "https://api.example/users" 5
  = inr user_list_data.
Proof. vm_compute. reflexivity. Qed.


(** The second of three expected headers is missing. *)
Lemma header_check_stops_at_first_failure_witness :
  let response := user_list_data in
  let expected := [("Content-Type", "json"); ("X-Request-Id", "abc");
                   ("Accept", "text")] in
  result (validateHeaders response expected tt) <> Normal tt /\
  exists passed key value rest,
    expected = passed ++ (key, value) :: rest /\
    Forall (fun kv =>
              exists actual,
                headers response !! lower_case kv.1 = Some actual /\
                includes kv.2 actual = true)
           passed /\
    (forall actual, headers response !! lower_case key = Some actual ->
                    includes value actual = false) /\
    last (trace (validateHeaders response expected tt))
    = Some (Log INFO ("Validating header: " +:+ key +:+ " contains "
                      +:+ quote +:+ value +:+ quote)) /\
    length (trace (validateHeaders response expected tt))
    = S (2 * length passed) /\
    forall rest',
      validateHeaders response (passed ++ (key, value) :: rest') tt
      = validateHeaders response expected tt.
Proof.
  intros response expected.
  assert (Hfail : result (validateHeaders response expected tt) <> Normal tt)
    by (vm_compute; discriminate).
  split; [exact Hfail |].
  exact (header_check_stops_at_first_failure response expected Hfail).
Defined.

(** A response with a header [X-Trace] more, which no check can see. *)
Lemma header_check_reads_lower_case_names_only_witness :
  let response := user_list_data in
  let response' :=
    {| status := 200; statusText := "OK"; body := body response;
       rawBody := rawBody response;
       headers := <["X-Trace" := "1"]> (headers response);
       responseTime := 5; url := url response; method := "GET" |} in
  validateHeaders response [("X-Trace", "1")] tt
  = validateHeaders response' [("X-Trace", "1")] tt /\
  result (validateHeaders response' [("X-Trace", "1")] tt)
  = Throw ExpectationFailed.
Proof.
  intros response response'.
  assert (Hagree : forall name, lower_case name = name ->
                     headers response !! name = headers response' !! name).
  { intros name Hlow. simpl.
    destruct (decide (name = "X-Trace")) as [-> | Hne];
      [vm_compute in Hlow; discriminate |].
    rewrite lookup_insert_ne by congruence. reflexivity. }
  split.
  - exact (header_check_reads_lower_case_names_only response response'
             [("X-Trace", "1")] Hagree).
  - vm_compute. reflexivity.
Defined.

(** The transport answers with [Content-Type] in mixed case: the check
    for [Content-Type] fails. *)
Lemma header_check_follows_transport_names_witness :
  let out := get (scripted [inr plain_text]) default_env example_client
                 "/notes/1" no_options (0%nat, 0) in
  exists d, result out = Normal d /\
            result (validateHeaders d [("Content-Type", "text/plain")] tt)
            <> Normal tt.
Proof.
  intros out.
  destruct (result out) as [d | x] eqn:Hd; [| vm_compute in Hd; discriminate].
  exists d. split; [reflexivity |].
  destruct (header_check_follows_transport_names
              (scripted [inr plain_text]) default_env example_client "GET"
              "/notes/1" no_options (0%nat, 0) d "Content-Type" "text/plain"
              Hd)
    as (r & Hlast & Hiff).
  vm_compute in Hlast. injection Hlast as <-.
  intros Hpass. apply Hiff in Hpass as (_ & actual & Hget & _).
  vm_compute in Hget. discriminate.
Defined.

(** A 404 is verified as 404. *)
Lemma status_check_on_result_witness :
  let out := get (scripted [inr not_found]) default_env example_client
                 "/users/0" no_options (0%nat, 0) in
  exists d, result out = Normal d /\
            result (validateStatus d 404 tt) = Normal tt.
Proof.
  intros out.
  destruct (result out) as [d | x] eqn:Hd; [| vm_compute in Hd; discriminate].
  exists d. split; [reflexivity |].
  destruct (status_check_on_result
              (scripted [inr not_found]) default_env example_client "GET"
              "/users/0" no_options (0%nat, 0) d 404 Hd)
    as (r & Hlast & Hiff & _).
  vm_compute in Hlast. injection Hlast as <-.
  apply Hiff. reflexivity.
Defined.

(** An object with an array of two under [data]; and the text [null]. *)
Lemma array_check_on_result_witness :
  (let out := get (scripted [inr user_list]) default_env example_client
                  "/users" no_options (0%nat, 0) in
   exists d, result out = Normal d /\
             result (validateBodyIsArray d "data" tt) = Normal tt) /\
  (let out := get (scripted [inr null_body]) default_env example_client
                  "/users" no_options (0%nat, 0) in
   exists d, result out = Normal d /\
             result (validateBodyIsArray d "data" tt) = Throw TypeError).
Proof.
  split; intros out.
  - destruct (result out) as [d | x] eqn:Hd;
      [| vm_compute in Hd; discriminate].
    exists d. split; [reflexivity |].
    destruct (array_check_on_result
                (scripted [inr user_list]) default_env example_client "GET"
                "/users" no_options (0%nat, 0) d "data" Hd)
      as (r & Hlast & Hraw & Hcase).
    vm_compute in Hlast. injection Hlast as <-.
    injection Hraw as Hraw. rewrite <- Hraw in Hcase.
    vm_compute in Hcase. apply Hcase. eauto.
  - destruct (result out) as [d | x] eqn:Hd;
      [| vm_compute in Hd; discriminate].
    exists d. split; [reflexivity |].
    destruct (array_check_on_result
                (scripted [inr null_body]) default_env example_client "GET"
                "/users" no_options (0%nat, 0) d "data" Hd)
      as (r & Hlast & Hraw & Hcase).
    vm_compute in Hlast. injection Hlast as <-.
    injection Hraw as Hraw. rewrite <- Hraw in Hcase.
    exact Hcase.
Defined.

End ApiValidatorFacts.
